(** * Depth-increasing pooling (YOLOv2 extension) and its axis permuter

    Shallow embedding of
    [Examples/Image/Detection/YOLOv2/extensions/depth_increasing_pooling.py]:
    the numpy reference [dip_np], the swap-only transpose [transposeAlotNp],
    [dip_swap_np] built on it, and the CNTK graph version
    [depth_increasing_pooling].

    Arrays are numpy-style strided views over a flat row-major buffer.
    Element values are only moved, never computed with, so the element type
    is a parameter.  Python integers are [Z]; extents, strides and axis
    numbers are [nat].  The arithmetic is Python 3's: [/] on two ints is
    true division and gives a float, [int(...)] truncates it. *)

From stdpp Require Import base numbers list.

(** ** Python exceptions and the error monad *)

(** The exceptions the modelled code can raise.  [AssertionError] is the
    failed [assert] of [depth_increasing_pooling] (its message is not
    modelled). *)
Inductive exn : Set :=
| AssertionError
| ValueError
| AxisError
| IndexError
| ZeroDivisionError
| AttributeError.

Inductive result (A : Type) : Type :=
| Ok (a : A)
| Raise (e : exn).
Arguments Ok {A} a.
Arguments Raise {A} e.

#[global] Instance result_ret : MRet result := @Ok.
#[global] Instance result_bind : MBind result :=
  λ A B f m, match m with Ok a => f a | Raise e => Raise e end.
#[global] Instance result_fmap : FMap result :=
  λ A B f m, match m with Ok a => Ok (f a) | Raise e => Raise e end.

(** [for x in xs: st = body st x], stopping at the first exception. *)
Fixpoint for_each {S X : Type} (body : S → X → result S) (xs : list X) (st : S)
  : result S :=
  match xs with
  | [] => Ok st
  | x :: xs' => st' ← body st x; for_each body xs' st'
  end.

(** ** Python numbers appearing in shape tuples *)

(** [PyFloat n d] is the float produced by the true division [n / d] of two
    ints ([d ≠ 0]).  It is kept as the exact quotient: the only thing done
    with it is to take its integer part, which for extents below 2^53 is the
    integer part of the exact quotient. *)
Inductive pynum : Set :=
| PyInt (z : Z)
| PyFloat (n d : Z).

(** [a / b] on two ints (true division). *)
Definition py_truediv (a b : Z) : result pynum :=
  if decide (b = 0%Z) then Raise ZeroDivisionError else Ok (PyFloat a b).

(** [int(x)]: truncation toward zero. *)
Definition py_int (x : pynum) : Z :=
  match x with
  | PyInt z => z
  | PyFloat n d => Z.quot n d
  end.

(** [t[k]] on a tuple of ints. *)
Definition tuple_get (t : list Z) (k : nat) : result Z :=
  match t !! k with
  | Some z => Ok z
  | None => Raise IndexError
  end.

(** ** Calls into the CNTK library *)

(** The library operations [depth_increasing_pooling] issues, with the
    shape or permutation it passes. *)
Inductive call : Type :=
| CallReshape (new : list pynum)
| CallTransposeALot (permutation : list nat).

(** A computation together with the library calls it has attempted so far,
    oldest first.  A call is logged when it is made, whether or not it
    raises. *)
Record traced (A : Type) : Type := Traced {
  calls : list call;
  outcome : result A;
}.
Arguments Traced {A} calls outcome.
Arguments calls {A} t.
Arguments outcome {A} t.

#[global] Instance traced_ret : MRet traced := λ A a, Traced [] (Ok a).
#[global] Instance traced_bind : MBind traced :=
  λ A B f m,
    match outcome m with
    | Ok a => Traced (calls m ++ calls (f a)) (outcome (f a))
    | Raise e => Traced (calls m) (Raise e)
    end.

(** A step that calls nothing. *)
Definition lift {A : Type} (r : result A) : traced A := Traced [] r.

(** A library call and what it returned. *)
Definition calling {A : Type} (c : call) (r : result A) : traced A := Traced [c] r.

(** ** Row-major index arithmetic *)

(** Number of elements of a shape. *)
Definition size (s : list nat) : nat := foldr Nat.mul 1 s.

(** Strides (in elements) of a C-contiguous array of shape [s]. *)
Fixpoint c_strides (s : list nat) : list nat :=
  match s with
  | [] => []
  | _ :: s' => size s' :: c_strides s'
  end.

(** Buffer offset of a multi-index under given strides. *)
Definition offset (idx strd : list nat) : nat :=
  sum_list (zip_with Nat.mul idx strd).

(** Multi-index of the [k]-th element in row-major order. *)
Fixpoint unravel_index (k : nat) (s : list nat) : list nat :=
  match s with
  | [] => []
  | _ :: s' => k / size s' :: unravel_index (k mod size s') s'
  end.

(** A multi-index is valid for a shape. *)
Definition in_bounds (idx s : list nat) : Prop := Forall2 lt idx s.

(** [l[i], l[j] = l[j], l[i]], written as the three assignments
    [tmp = l[i]; l[i] = l[j]; l[j] = tmp]. *)
Definition list_swap {X : Type} `{Inhabited X} (i j : nat) (l : list X) : list X :=
  let tmp := l !!! i in
  let l1 := <[i := l !!! j]> l in
  <[j := tmp]> l1.

(** The transposition of [i] and [j], as a map on positions. *)
Definition transp (i j k : nat) : nat :=
  if decide (k = j) then i else if decide (k = i) then j else k.

(** Position of the first occurrence of [a] ([list.index]); [length l] when
    absent. *)
Fixpoint index_of (a : nat) (l : list nat) : nat :=
  match l with
  | [] => 0
  | x :: l' => if decide (x = a) then 0 else S (index_of a l')
  end.

(** The inverse of a permutation given as a list ([np.argsort]). *)
Definition inverse_permutation (p : list nat) : list nat :=
  (λ a, index_of a p) <$> seq 0 (length p).

(** ** Arrays *)

Section Arrays.
Context {A : Type} `{Inhabited A}.

(** A strided view: one (extent, stride) pair per axis, over a flat buffer. *)
Record ndarray : Type := mk_ndarray {
  axes : list (nat * nat);
  data : list A;
}.

Definition shape (a : ndarray) : list nat := (axes a).*1.
Definition strides (a : ndarray) : list nat := (axes a).*2.
Definition ndim (a : ndarray) : nat := length (axes a).

(** [a[idx]] for a full multi-index. *)
Definition getitem (a : ndarray) (idx : list nat) : A :=
  data a !!! offset idx (strides a).

(** The array is laid out C-contiguously over exactly its own elements. *)
Definition c_contiguous (a : ndarray) : Prop :=
  strides a = c_strides (shape a) ∧ length (data a) = size (shape a).

(** [np.ascontiguousarray]: a fresh row-major buffer with the same
    elements at the same indices. *)
Definition ascontiguousarray (a : ndarray) : ndarray :=
  let s := shape a in
  {| axes := zip s (c_strides s);
     data := (λ k, getitem a (unravel_index k s)) <$> seq 0 (size s) |}.

(** [np.array_equal]: same shape, same element at every index. *)
Definition array_equal (a b : ndarray) : Prop :=
  shape a = shape b ∧ ∀ idx, in_bounds idx (shape a) → getitem a idx = getitem b idx.

(** The view whose axis [k] is axis [p[k]] of [a]. *)
Definition permute_axes (p : list nat) (a : ndarray) : ndarray :=
  {| axes := (λ k, axes a !!! k) <$> p; data := data a |}.

(** [np.transpose(a, axes)]: [axes] must be a permutation of
    [range(a.ndim)]. *)
Definition np_transpose (a : ndarray) (p : list nat) : result ndarray :=
  if decide (p ≡ₚ seq 0 (ndim a)) then Ok (permute_axes p a)
  else Raise ValueError.

(** [np.swapaxes(a, i, j)]: a view with the two axes exchanged. *)
Definition np_swapaxes (a : ndarray) (i j : nat) : result ndarray :=
  if decide (i < ndim a ∧ j < ndim a)
  then Ok {| axes := list_swap i j (axes a); data := data a |}
  else Raise AxisError.

(** [a.shape = new].  The element count must be kept ([ValueError]
    otherwise).  The arrays this file assigns a shape to are C-contiguous
    (a copy of the data, the result of [np.ascontiguousarray]); for a view
    that is not, numpy decides from the strides whether the assignment can
    be done in place, which is not modelled: it is reported as
    [AttributeError].  A negative entry is refused: the shapes assigned here
    that have one are refused by numpy too (its [-1] wildcard never resolves
    in them). *)
Definition set_shape (a : ndarray) (new : list Z) : result ndarray :=
  if decide (Forall (λ d, 0 ≤ d)%Z new) then
    let s := Z.to_nat <$> new in
    if decide (size s = size (shape a)) then
      if decide (strides a = c_strides (shape a))
      then Ok {| axes := zip s (c_strides s); data := data a |}
      else Raise AttributeError
    else Raise ValueError
  else Raise ValueError.

(** The elements of [x], in row-major order, under the shape [s]. *)
Definition reshaped (x : ndarray) (s : list nat) : ndarray :=
  {| axes := zip s (c_strides s); data := data (ascontiguousarray x) |}.

(** [np.asarray] of a three-level nested list. *)
Definition np_asarray3 (l : list (list (list A))) : ndarray :=
  let s := [length l; length (default [] (head l));
            length (default [] (head (default [] (head l))))] in
  {| axes := zip s (c_strides s); data := concat (concat l) |}.

(** *** [transposeAlotNp] (lines 141-161) *)

(** The loop variables of [transposeAlotNp].  [swap_log] is ghost state: it
    records the [(i, j)] of every [np.swapaxes] call, in order. *)
Record loop_state : Type := mk_loop_state {
  model : ndarray;
  current_permutation : list nat;
  swap_log : list (nat * nat);
}.

(** [for j in js: if current_permutation[j] == target: break].  Returns the
    value [j] holds afterwards; [j0] is its value before the loop, kept
    when [js] is empty. *)
Fixpoint inner_search (cur : list nat) (target : nat) (j0 : nat) (js : list nat)
  : nat :=
  match js with
  | [] => j0
  | j :: js' =>
      if decide (cur !!! j = target) then j
      else inner_search cur target j js'
  end.

(** One iteration of the outer loop, for position [i].  The inner range
    [range(i, nr_of_axes)] is never empty ([i ≤ nr_of_axes - 2]), so the
    value [j] had before the inner loop is never used; [i] stands for it. *)
Definition outer_body (permutation : list nat) (nr_of_axes : nat)
    (st : loop_state) (i : nat) : result loop_state :=
  let cur := current_permutation st in
  if decide (permutation !!! i ≠ cur !!! i) then
    let j := inner_search cur (permutation !!! i) i (seq i (nr_of_axes - i)) in
    v ← np_swapaxes (model st) i j;
    mret {| model := ascontiguousarray v;
            current_permutation := list_swap i j cur;
            swap_log := swap_log st ++ [(i, j)] |}
  else mret st.

Definition initial_state (m : ndarray) (nr_of_axes : nat) : loop_state :=
  {| model := m; current_permutation := seq 0 nr_of_axes; swap_log := [] |}.

(** The state after the outer loop has run over [positions]. *)
Definition transposeAlotNp_loop (m : ndarray) (permutation : list nat)
    (positions : list nat) : result loop_state :=
  let nr_of_axes := length permutation in
  for_each (outer_body permutation nr_of_axes) positions
    (initial_state m nr_of_axes).

Definition transposeAlotNp_run (m : ndarray) (permutation : list nat)
  : result loop_state :=
  transposeAlotNp_loop m permutation (seq 0 (length permutation - 1)).

Definition transposeAlotNp (m : ndarray) (permutation : list nat)
  : result ndarray :=
  st ← transposeAlotNp_run m permutation; mret (model st).

(** Ghost replay: the swaps of a log applied, in order, the way the loop
    applies them (a contiguous copy after each). *)
Definition replay_swaps (m : ndarray) (log : list (nat * nat)) : result ndarray :=
  for_each (λ m '(i, j), v ← np_swapaxes m i j; mret (ascontiguousarray v)) log m.

(** The state an iteration leaves when it swaps the positions [i] and [j]
    (lines 154-158). *)
Definition swap_state (st : loop_state) (i j : nat) : loop_state :=
  {| model := ascontiguousarray
                {| axes := list_swap i j (axes (model st)); data := data (model st) |};
     current_permutation := list_swap i j (current_permutation st);
     swap_log := swap_log st ++ [(i, j)] |}.

(** *** The numpy versions of the pooling (lines 50-63 and 164-177) *)

(** [shape_tmp] and [final_shape] as [dip_np] and [dip_swap_np] build them:
    every quotient goes through [int(...)]. *)
Definition np_shapes (vshape : list Z) (pooling_window_shape : Z * Z)
  : result (list Z * list Z) :=
  let '(w0, w1) := pooling_window_shape in
  s0 ← tuple_get vshape 0;
  s1 ← tuple_get vshape 1;
  q1 ← py_truediv s1 w0;
  s2 ← tuple_get vshape 2;
  q2 ← py_truediv s2 w1;
  mret ([s0; py_int q1; w0; py_int q2; w1],
        [(s0 * w0 * w1)%Z; py_int q1; py_int q2]).

Definition dip_np (volume : ndarray) (pooling_window_shape : Z * Z)
  : result ndarray :=
  '(shape_tmp, final_shape) ← np_shapes (Z.of_nat <$> shape volume) pooling_window_shape;
  volume ← set_shape volume shape_tmp;
  t ← np_transpose volume [0; 2; 4; 1; 3];
  set_shape (ascontiguousarray t) final_shape.

Definition dip_swap_np (volume : ndarray) (pooling_window_shape : Z * Z)
  : result ndarray :=
  '(shape_tmp, final_shape) ← np_shapes (Z.of_nat <$> shape volume) pooling_window_shape;
  volume ← set_shape volume shape_tmp;
  temp ← transposeAlotNp volume [0; 2; 4; 1; 3];
  set_shape temp final_shape.

(** *** The CNTK version (lines 10-41) *)

(** Modelled from the spec: [cntk.reshape] is not among the sources.  A
    tensor is a logical view over a contiguous row-major buffer, its shape a
    sequence of integers, and "a reshape is valid only when the product of
    the new shape's entries equals the product of the old shape's entries"
    (data model); an entry that arrives as a quotient is read as an integer,
    the division being integer division (DepthIncreasingPooling,
    preconditions).  An invalid reshape is reported as [ValueError]. *)
Definition reshape (x : ndarray) (new : list pynum) : result ndarray :=
  let new := py_int <$> new in
  if decide (Forall (λ d, 0 ≤ d)%Z new) then
    let s := Z.to_nat <$> new in
    if decide (size s = size (shape x))
    then Ok (reshaped x s)
    else Raise ValueError
  else Raise ValueError.

(** Modelled from the spec: [extensions.Transpose.transpose_a_lot] is not
    among the sources.  The AxisPermuter contract describes the
    selection-swap algorithm step by step, with a contiguous copy after each
    pairwise swap; that is the algorithm of [transposeAlotNp], its numpy
    twin in this file. *)
Definition transpose_a_lot (x : ndarray) (permutation : list nat)
  : result ndarray :=
  transposeAlotNp x permutation.

(** The function returns its result together with the calls it made. *)
Definition depth_increasing_pooling (tensor : ndarray)
    (pooling_window_shape : Z * Z) (input_shape : option (list Z))
  : traced ndarray :=
  let '(w0, w1) := pooling_window_shape in
  let input_shape := default (Z.of_nat <$> shape tensor) input_shape in
  if decide (length input_shape = 3) then
    s0 ← lift (tuple_get input_shape 0);
    s1 ← lift (tuple_get input_shape 1);
    q1 ← lift (py_truediv s1 w0);
    s2 ← lift (tuple_get input_shape 2);
    q2 ← lift (py_truediv s2 w1);
    let shape_tmp := [PyInt s0; PyInt (py_int q1); PyInt w0;
                      PyInt (py_int q2); PyInt w1] in
    f1 ← lift (py_truediv s1 w0);
    f2 ← lift (py_truediv s2 w1);
    let final_shape := [PyInt (s0 * w0 * w1)%Z; f1; f2] in
    temp1 ← calling (CallReshape shape_tmp) (reshape tensor shape_tmp);
    temp2 ← calling (CallTransposeALot [0; 2; 4; 1; 3])
              (transpose_a_lot temp1 [0; 2; 4; 1; 3]);
    temp3 ← calling (CallReshape final_shape) (reshape temp2 final_shape);
    mret temp3
  else Traced [] (Raise AssertionError).


End Arrays.

Arguments ndarray A : clear implicits.
Arguments loop_state A : clear implicits.

(** ** The invariant of the outer loop of [transposeAlotNp] *)

(** [c0] followed by [cur]: position [k] holds [c0[cur[k]]]. *)
Definition compose_perm (c0 cur : list nat) : list nat :=
  (λ k, c0 !!! k) <$> cur.

(** What holds once the positions [0 .. k-1] have been processed.  The run
    starts from a model [m0] that shows the axes of [v] in the order [c0]
    ([c0] is the identity when [transposeAlotNp] is called on [v] itself). *)
Record loop_invariant {A : Type} `{Inhabited A} (v m0 : ndarray A)
    (c0 permutation : list nat) (k : nat) (st : loop_state A) : Prop := {
  inv_perm : current_permutation st ≡ₚ seq 0 (length permutation);
  inv_prefix : take k (current_permutation st) = take k permutation;
  inv_model :
    array_equal (model st)
      (permute_axes (compose_perm c0 (current_permutation st)) v);
  inv_log : length (swap_log st) ≤ k;
  inv_layout : model st = m0 ∨ c_contiguous (model st);
}.

(** ** The data of [test_depth_increasing_pooling] (lines 65-100) *)

(** The source stores the values with [dtype=float]; they are whole numbers
    and are only moved, so they are kept as integers. *)

Definition test_data : ndarray Z :=
  np_asarray3
    [[[0; 1; 2; 3];
      [10; 11; 12; 13];
      [20; 21; 22; 23];
      [30; 31; 32; 33]];
     [[100; 101; 102; 103];
      [110; 111; 112; 113];
      [120; 121; 122; 123];
      [130; 131; 132; 133]]]%Z.


(** A (2,2) matrix: one axis too few for the pooling. *)
Definition matrix_data : ndarray Z :=
  {| axes := zip [2; 2] (c_strides [2; 2]); data := [0; 1; 10; 11]%Z |}.

Definition test_expected : ndarray Z :=
  np_asarray3
    [[[0; 2]; [20; 22]];
     [[1; 3]; [21; 23]];
     [[10; 12]; [30; 32]];
     [[11; 13]; [31; 33]];
     [[100; 102]; [120; 122]];
     [[101; 103]; [121; 123]];
     [[110; 112]; [130; 132]];
     [[111; 113]; [131; 133]]]%Z.

(** * Proofs *)

(** ** The error monad *)

Lemma for_each_app {S X : Type} (body : S → X → result S) (xs ys : list X) (st : S) :
  for_each body (xs ++ ys) st = (st' ← for_each body xs st; for_each body ys st').
Proof.
  revert st. induction xs as [|x xs IH]; intros st; simpl; [done|].
  destruct (body st x) as [st'|e]; simpl; [apply IH | done].
Qed.

(** ** Row-major index arithmetic *)

Lemma size_cons d s : size (d :: s) = d * size s.
Proof. reflexivity. Qed.

Lemma offset_cons i idx k strd :
  offset (i :: idx) (k :: strd) = i * k + offset idx strd.
Proof. reflexivity. Qed.

Lemma length_c_strides s : length (c_strides s) = length s.
Proof. induction s; simpl; congruence. Qed.

(** A valid multi-index is stored inside the buffer... *)
Lemma ravel_lt idx s : in_bounds idx s → offset idx (c_strides s) < size s.
Proof.
  induction 1 as [|i d idx s Hi _ IH].
  - unfold offset, size. simpl. lia.
  - change (c_strides (d :: s)) with (size s :: c_strides s).
    rewrite offset_cons, size_cons. nia.
Qed.

(** ... and [unravel_index] recovers it from its offset. *)
Lemma unravel_ravel idx s :
  in_bounds idx s → unravel_index (offset idx (c_strides s)) s = idx.
Proof.
  induction 1 as [|i d idx s Hi Hb IH]; [done|].
  change (c_strides (d :: s)) with (size s :: c_strides s).
  rewrite offset_cons. cbn [unravel_index]. pose proof (ravel_lt _ _ Hb) as Hlt.
  rewrite Nat.div_add_l by lia. rewrite Nat.div_small by lia.
  rewrite Nat.add_0_r. f_equal.
  rewrite Nat.add_comm, Nat.Div0.mod_add, Nat.mod_small by lia. done.
Qed.

Lemma unravel_in_bounds k s : k < size s → in_bounds (unravel_index k s) s.
Proof.
  revert k. induction s as [|d s IH]; intros k Hk; [constructor|].
  rewrite size_cons in Hk. cbn [unravel_index].
  assert (size s ≠ 0) by (intros E; rewrite E in Hk; lia).
  constructor.
  - apply Nat.Div0.div_lt_upper_bound. lia.
  - apply IH. apply Nat.mod_upper_bound. done.
Qed.

Lemma ravel_unravel k s :
  k < size s → offset (unravel_index k s) (c_strides s) = k.
Proof.
  revert k. induction s as [|d s IH]; intros k Hk.
  - unfold size in Hk; simpl in Hk. unfold offset; simpl. lia.
  - rewrite size_cons in Hk. cbn [unravel_index c_strides].
    assert (size s ≠ 0) by (intros E; rewrite E in Hk; lia).
    rewrite offset_cons, IH by (by apply Nat.mod_upper_bound).
    pose proof (Nat.div_mod_eq k (size s)). lia.
Qed.

(** ** Exchanging two entries of a list *)

Section list_swap.
Context {X : Type} `{Inhabited X}.
Implicit Types l : list X.

Lemma length_list_swap i j l : length (list_swap i j l) = length l.
Proof. unfold list_swap. by rewrite !length_insert. Qed.

Lemma transp_invol i j k : transp i j (transp i j k) = k.
Proof. unfold transp. repeat case_decide; congruence. Qed.

#[local] Instance transp_inj i j : Inj (=) (=) (transp i j).
Proof. intros a b E. by rewrite <-(transp_invol i j a), E, transp_invol. Qed.

Lemma list_swap_lookup i j l k :
  i < length l → j < length l → list_swap i j l !! k = l !! transp i j k.
Proof.
  intros Hi Hj. unfold list_swap, transp.
  destruct (decide (k = j)) as [->|Hkj].
  - rewrite list_lookup_insert_eq by (by rewrite length_insert).
    by rewrite list_lookup_lookup_total_lt.
  - rewrite list_lookup_insert_ne by done.
    destruct (decide (k = i)) as [->|Hki].
    + rewrite list_lookup_insert_eq by done. by rewrite list_lookup_lookup_total_lt.
    + by rewrite list_lookup_insert_ne.
Qed.

Lemma list_swap_Permutation i j l :
  i < length l → j < length l → list_swap i j l ≡ₚ l.
Proof.
  intros Hi Hj. apply Permutation_inj. split; [apply length_list_swap|].
  exists (transp i j). split; [apply _|]. intros k. by apply list_swap_lookup.
Qed.

Lemma list_swap_invol i j l :
  i < length l → j < length l → list_swap i j (list_swap i j l) = l.
Proof.
  intros Hi Hj. apply list_eq. intros k.
  rewrite !list_swap_lookup by (by rewrite ?length_list_swap).
  by rewrite transp_invol.
Qed.

Lemma list_swap_take i j l k :
  k ≤ i → k ≤ j → take k (list_swap i j l) = take k l.
Proof. intros. unfold list_swap. by rewrite !take_insert_ge. Qed.

End list_swap.

Lemma list_swap_fmap {X Y : Type} `{Inhabited X, Inhabited Y} (f : X → Y) i j (l : list X) :
  i < length l → j < length l → f <$> list_swap i j l = list_swap i j (f <$> l).
Proof.
  intros Hi Hj. unfold list_swap.
  rewrite !list_fmap_insert.
  by rewrite (list_lookup_total_fmap f l i), (list_lookup_total_fmap f l j).
Qed.

Lemma list_swap_Forall2 {X Y : Type} `{Inhabited X, Inhabited Y}
    (R : X → Y → Prop) i j (a : list X) (b : list Y) :
  i < length a → j < length a →
  Forall2 R a b → Forall2 R (list_swap i j a) (list_swap i j b).
Proof.
  intros Hi Hj HR. pose proof (Forall2_length _ _ _ HR) as Hlen.
  apply Forall2_same_length_lookup_2.
  { by rewrite !length_list_swap. }
  intros k x y. rewrite !list_swap_lookup by lia.
  by apply Forall2_lookup_lr.
Qed.

Lemma offset_list_swap i j (idx strd : list nat) :
  length idx = length strd → i < length idx → j < length idx →
  offset (list_swap i j idx) (list_swap i j strd) = offset idx strd.
Proof.
  intros Hlen Hi Hj. unfold offset.
  assert (zip_with Nat.mul (list_swap i j idx) (list_swap i j strd)
          = list_swap i j (zip_with Nat.mul idx strd)) as ->.
  { unfold list_swap. rewrite <-!insert_zip_with.
    rewrite (lookup_total_zip_with Nat.mul idx strd i) by lia.
    by rewrite (lookup_total_zip_with Nat.mul idx strd j) by lia. }
  apply sum_list_with_Permutation_proper, list_swap_Permutation;
    rewrite length_zip_with; lia.
Qed.

(** ** Arrays: contiguous copies and array equality *)

Section array_facts.
Context {A : Type} `{Inhabited A}.
Implicit Types a b m : ndarray A.

Lemma fst_zip_c_strides s : (zip s (c_strides s)).*1 = s.
Proof. apply fst_zip. by rewrite length_c_strides. Qed.

Lemma snd_zip_c_strides s : (zip s (c_strides s)).*2 = c_strides s.
Proof. apply snd_zip. by rewrite length_c_strides. Qed.

Lemma shape_ascontiguousarray a : shape (ascontiguousarray a) = shape a.
Proof. apply fst_zip_c_strides. Qed.

Lemma strides_ascontiguousarray a :
  strides (ascontiguousarray a) = c_strides (shape a).
Proof. apply snd_zip_c_strides. Qed.

Lemma length_shape a : length (shape a) = ndim a.
Proof. unfold shape, ndim. by rewrite length_fmap. Qed.

(** Reading the [k]-th element of a buffer built in row-major order. *)
Lemma lookup_total_tabulate (f : nat → A) n k :
  k < n → (f <$> seq 0 n) !!! k = f k.
Proof.
  intros Hk. rewrite (list_lookup_total_fmap f (seq 0 n) k) by (by rewrite length_seq).
  by rewrite lookup_total_seq_lt.
Qed.

Lemma getitem_ascontiguousarray a idx :
  in_bounds idx (shape a) → getitem (ascontiguousarray a) idx = getitem a idx.
Proof.
  intros Hb. unfold getitem at 1. rewrite strides_ascontiguousarray. simpl.
  rewrite lookup_total_tabulate by (by apply ravel_lt).
  by rewrite unravel_ravel.
Qed.

Lemma array_equal_refl a : array_equal a a.
Proof. by split. Qed.

Lemma array_equal_sym a b : array_equal a b → array_equal b a.
Proof.
  intros [Hs He]. split; [done|]. intros idx Hb. symmetry. apply He.
  by rewrite Hs.
Qed.

Lemma array_equal_trans a b m : array_equal a b → array_equal b m → array_equal a m.
Proof.
  intros [Hs1 He1] [Hs2 He2]. split; [congruence|]. intros idx Hb.
  rewrite He1 by done. apply He2. by rewrite <-Hs1.
Qed.

Lemma array_equal_ascontiguousarray a : array_equal (ascontiguousarray a) a.
Proof.
  split; [apply shape_ascontiguousarray|]. intros idx.
  rewrite shape_ascontiguousarray. apply getitem_ascontiguousarray.
Qed.

(** Two arrays are [array_equal] exactly when their contiguous copies are
    the same value. *)
Lemma ascontiguousarray_ext a b :
  array_equal a b → ascontiguousarray a = ascontiguousarray b.
Proof.
  intros [Hs He]. unfold ascontiguousarray. rewrite <-Hs. f_equal.
  apply list_fmap_ext. intros i k [-> Hk]%lookup_seq.
  apply He, unravel_in_bounds. done.
Qed.

Lemma array_equal_iff a b :
  array_equal a b ↔ ascontiguousarray a = ascontiguousarray b.
Proof.
  split; [apply ascontiguousarray_ext|]. intros E.
  eapply array_equal_trans; [apply array_equal_sym, array_equal_ascontiguousarray|].
  rewrite E. apply array_equal_ascontiguousarray.
Qed.

Lemma c_contiguous_ascontiguousarray a : c_contiguous (ascontiguousarray a).
Proof.
  split.
  - by rewrite strides_ascontiguousarray, shape_ascontiguousarray.
  - rewrite shape_ascontiguousarray. simpl. by rewrite length_fmap, length_seq.
Qed.

Lemma ascontiguousarray_id a : c_contiguous a → ascontiguousarray a = a.
Proof.
  intros [Hst Hlen]. destruct a as [ax d]. unfold ascontiguousarray.
  unfold shape, strides in *. simpl in *. f_equal.
  - by rewrite <-Hst, zip_fst_snd.
  - apply list_eq_same_length with (length d);
      [done | by rewrite length_fmap, length_seq |].
    intros k x y Hk Hx Hy.
    rewrite list_lookup_fmap, lookup_seq_lt in Hx by lia. simpl in Hx.
    unfold getitem in Hx. simpl in Hx. unfold strides in Hx. simpl in Hx.
    rewrite Hst, ravel_unravel in Hx by lia.
    apply list_lookup_total_correct in Hy. congruence.
Qed.

(** For C-contiguous arrays, [array_equal] is equality. *)
Lemma array_equal_c_contiguous a b :
  c_contiguous a → c_contiguous b → array_equal a b → a = b.
Proof.
  intros Ha Hb E%ascontiguousarray_ext. by rewrite !ascontiguousarray_id in E.
Qed.

(** ** Axis views *)

Lemma ndim_permute_axes p a : ndim (permute_axes p a) = length p.
Proof. unfold ndim. simpl. by rewrite length_fmap. Qed.

Lemma permute_axes_id a : permute_axes (seq 0 (ndim a)) a = a.
Proof.
  destruct a as [ax d]. unfold permute_axes, ndim. simpl. f_equal.
  apply list_eq_same_length with (length ax);
    [done | by rewrite length_fmap, length_seq |].
  intros k x y Hk Hx Hy.
  rewrite list_lookup_fmap, lookup_seq_lt in Hx by done. simpl in Hx.
  apply list_lookup_total_correct in Hy. injection Hx as <-. exact Hy.
Qed.

Lemma np_swapaxes_Ok m i j :
  i < ndim m → j < ndim m →
  np_swapaxes m i j = Ok {| axes := list_swap i j (axes m); data := data m |}.
Proof. intros. unfold np_swapaxes. by rewrite decide_True. Qed.

(** Swapping two axes of a permuted view is the view permuted by the
    swapped permutation: the bookkeeping of [current_permutation]. *)
Lemma permute_axes_swap p a i j :
  i < length p → j < length p →
  permute_axes (list_swap i j p) a
  = {| axes := list_swap i j (axes (permute_axes p a));
       data := data (permute_axes p a) |}.
Proof. intros Hi Hj. unfold permute_axes. simpl. by rewrite list_swap_fmap. Qed.

(** [np.swapaxes] respects [array_equal]. *)
Lemma np_swapaxes_array_equal m1 m2 i j :
  array_equal m1 m2 → i < ndim m1 → j < ndim m1 →
  array_equal {| axes := list_swap i j (axes m1); data := data m1 |}
              {| axes := list_swap i j (axes m2); data := data m2 |}.
Proof.
  intros [Hs He] Hi Hj.
  assert (ndim m2 = ndim m1) as Hn by (by rewrite <-!length_shape, Hs).
  assert (∀ m, i < ndim m → j < ndim m →
    shape {| axes := list_swap i j (axes m); data := data m |}
    = list_swap i j (shape m)) as Hshape.
  { intros m ??. unfold shape. simpl. by rewrite list_swap_fmap. }
  assert (∀ m idx, i < ndim m → j < ndim m → length idx = ndim m →
    getitem {| axes := list_swap i j (axes m); data := data m |} idx
    = getitem m (list_swap i j idx)) as Hget.
  { intros m idx ?? Hl. unfold getitem, strides. simpl. f_equal.
    rewrite list_swap_fmap by done.
    rewrite <-(offset_list_swap i j (list_swap i j idx)).
    - by rewrite list_swap_invol by lia.
    - by rewrite !length_list_swap, length_fmap.
    - rewrite length_list_swap. lia.
    - rewrite length_list_swap. lia. }
  split.
  - rewrite !Hshape by lia. by rewrite Hs.
  - intros idx. rewrite Hshape by done. intros Hb.
    assert (length idx = ndim m1) as Hl.
    { apply Forall2_length in Hb. by rewrite length_list_swap, length_shape in Hb. }
    rewrite !Hget by lia. apply He.
    rewrite <-(list_swap_invol i j (shape m1)) by (by rewrite length_shape).
    apply list_swap_Forall2; [lia..|done].
Qed.

End array_facts.

(** ** The selection-swap loop *)

(** The inner [for ... break] finds the wanted axis when it is there. *)
Lemma inner_search_spec cur target j0 a len :
  (∃ pos, a ≤ pos < a + len ∧ cur !!! pos = target) →
  a ≤ inner_search cur target j0 (seq a len) < a + len
  ∧ cur !!! inner_search cur target j0 (seq a len) = target.
Proof.
  revert a j0. induction len as [|len IH]; intros a j0 (pos & Hpos & Hc).
  { lia. }
  simpl. case_decide as Ha; [split; [lia|done]|].
  destruct (IH (S a) a) as [??]; [|split; [lia|done]].
  exists pos. split; [|done].
  destruct (decide (pos = a)) as [->|]; [done|lia].
Qed.

Lemma compose_perm_swap c0 cur i j :
  i < length cur → j < length cur →
  list_swap i j (compose_perm c0 cur) = compose_perm c0 (list_swap i j cur).
Proof. intros. unfold compose_perm. by rewrite list_swap_fmap. Qed.

Lemma compose_perm_id n p :
  Forall (λ a, a < n) p → compose_perm (seq 0 n) p = p.
Proof.
  intros Hall. unfold compose_perm. rewrite <-(list_fmap_id p) at 2.
  apply list_fmap_ext. intros i a Hi. rewrite Forall_lookup in Hall.
  rewrite lookup_total_seq_lt by eauto. done.
Qed.

Lemma Permutation_seq_lt p n : p ≡ₚ seq 0 n → Forall (λ a, a < n) p.
Proof.
  intros Hp. apply Forall_forall. intros a Ha. rewrite Hp in Ha.
  apply elem_of_seq in Ha. lia.
Qed.

Section selection_swap.
Context {A : Type} `{Inhabited A}.
Context (v m0 : ndarray A) (c0 permutation : list nat).
Let n := length permutation.
Hypothesis Hvalid : permutation ≡ₚ seq 0 n.

Lemma loop_invariant_ndim k st :
  loop_invariant v m0 c0 permutation k st → ndim (model st) = n.
Proof.
  intros [Hp _ [Hs _] _ _].
  rewrite <-length_shape, Hs, length_shape, ndim_permute_axes.
  unfold compose_perm. rewrite length_fmap.
  apply Permutation_length in Hp. by rewrite length_seq in Hp.
Qed.

(** One iteration re-establishes the invariant, and never raises. *)
Lemma outer_body_invariant k st :
  k < n - 1 →
  loop_invariant v m0 c0 permutation k st →
  ∃ st', outer_body permutation n st k = Ok st'
         ∧ loop_invariant v m0 c0 permutation (S k) st'.
Proof.
  intros Hk Hinv. pose proof (loop_invariant_ndim _ _ Hinv) as Hnd.
  destruct Hinv as [Hp Hpre Hm Hlog Hlay].
  set (cur := current_permutation st) in *.
  assert (length cur = n) as Hlen.
  { apply Permutation_length in Hp. by rewrite length_seq in Hp. }
  assert (permutation !! k = Some (permutation !!! k)) as Hpk.
  { apply list_lookup_lookup_total_lt. fold n. lia. }
  unfold outer_body. fold cur. case_decide as Hne.
  - (* the axis has to be fetched *)
    set (j := inner_search _ _ _ _).
    assert (k ≤ j < n ∧ cur !!! j = permutation !!! k) as [Hj Hcj].
    { assert (∃ pos, k ≤ pos < k + (n - k) ∧ cur !!! pos = permutation !!! k)
        as Hex; [|destruct (inner_search_spec cur _ k k (n - k) Hex); split; [lia|done]].
      assert (permutation !!! k ∈ cur) as [pos Hpos]%list_elem_of_lookup_1.
      { rewrite Hp. fold n. rewrite <-Hvalid. by eapply list_elem_of_lookup_2. }
      exists pos. pose proof (lookup_lt_Some _ _ _ Hpos).
      split; [|by apply list_lookup_total_correct].
      split; [|lia]. destruct (decide (k ≤ pos)) as [|Hlt]; [done|]. exfalso.
      assert (permutation !! pos = Some (permutation !!! k)) as Hpp.
      { rewrite <-(lookup_take_lt permutation k), <-Hpre, lookup_take_lt by lia. done. }
      assert (NoDup permutation) as Hnd' by (rewrite Hvalid; apply NoDup_seq).
      pose proof (NoDup_lookup _ _ _ _ Hnd' Hpp Hpk). lia. }
    rewrite np_swapaxes_Ok by lia. simpl. eexists. split; [done|].
    split; simpl.
    + rewrite list_swap_Permutation by lia. done.
    + rewrite (take_S_r _ _ (permutation !!! k)).
      * rewrite list_swap_take by lia. rewrite Hpre. symmetry. by apply take_S_r.
      * rewrite list_swap_lookup by lia.
        assert (transp k j k = j) as -> by (unfold transp; repeat case_decide; lia).
        rewrite <-Hcj. apply list_lookup_lookup_total_lt. lia.
    + eapply array_equal_trans; [apply array_equal_ascontiguousarray|].
      rewrite <-compose_perm_swap by lia.
      rewrite permute_axes_swap
        by (unfold compose_perm; rewrite length_fmap; lia).
      apply np_swapaxes_array_equal; [done|lia..].
    + rewrite length_app. simpl. lia.
    + right. apply c_contiguous_ascontiguousarray.
  - (* already in place *)
    simpl. exists st. split; [done|]. split; try done.
    + fold cur. assert (cur !! k = Some (cur !!! k)) as Hck
        by (apply list_lookup_lookup_total_lt; lia).
      rewrite (take_S_r _ _ _ Hck), (take_S_r _ _ _ Hpk), Hpre.
      f_equal. f_equal. destruct (decide (permutation !!! k = cur !!! k)); [done|].
      contradiction.
    + lia.
Qed.

(** After the first [k] iterations the invariant holds at [k]. *)
Lemma loop_invariant_prefix k st0 :
  k ≤ n - 1 →
  loop_invariant v m0 c0 permutation 0 st0 →
  ∃ st, for_each (outer_body permutation n) (seq 0 k) st0 = Ok st
        ∧ loop_invariant v m0 c0 permutation k st.
Proof.
  intros Hk Hinv0. induction k as [|k IH].
  { exists st0. by split. }
  destruct IH as (st & Hrun & Hinv); [lia|].
  destruct (outer_body_invariant k st) as (st' & Hstep & Hinv'); [lia|done|].
  exists st'. split; [|done].
  rewrite seq_S, for_each_app, Hrun. simpl. by rewrite Hstep.
Qed.

(** Once all positions but the last agree, the last one agrees too. *)
Lemma loop_invariant_final st :
  loop_invariant v m0 c0 permutation (n - 1) st →
  current_permutation st = permutation.
Proof.
  intros [Hp Hpre _ _ _]. set (cur := current_permutation st) in *.
  assert (length cur = n) as Hlen.
  { apply Permutation_length in Hp. by rewrite length_seq in Hp. }
  destruct (decide (n = 0)) as [Hz|Hnz].
  { rewrite Hz in Hlen. apply nil_length_inv in Hlen. rewrite Hlen.
    symmetry. by apply nil_length_inv. }
  assert (cur ≡ₚ permutation) as Hcp by (etrans; [exact Hp|symmetry; exact Hvalid]).
  rewrite <-(take_drop (n - 1) cur), <-(take_drop (n - 1) permutation) in Hcp.
  rewrite Hpre in Hcp. apply (inj (_ ++.)) in Hcp.
  rewrite <-(take_drop (n - 1) cur), <-(take_drop (n - 1) permutation), Hpre.
  f_equal.
  assert (length (drop (n - 1) cur) = 1) as Hd by (rewrite length_drop; lia).
  destruct (drop (n - 1) cur) as [|x [|??]]; simplify_eq/=.
  by apply Permutation_singleton_l in Hcp.
Qed.

End selection_swap.

(** ** Permutations as lists *)

Lemma compose_perm_seq c0 : compose_perm c0 (seq 0 (length c0)) = c0.
Proof.
  unfold compose_perm.
  apply list_eq_same_length with (length c0);
    [done | by rewrite length_fmap, length_seq |].
  intros k x y Hk Hx Hy.
  rewrite list_lookup_fmap, lookup_seq_lt in Hx by done. simpl in Hx.
  apply list_lookup_total_correct in Hy. injection Hx as <-. exact Hy.
Qed.

Lemma index_of_lookup a l : a ∈ l → l !! index_of a l = Some a.
Proof.
  induction l as [|x l IH]; [by intros ?%elem_of_nil|].
  intros Ha. simpl. case_decide as Hx; [by subst|].
  apply elem_of_cons in Ha as [->|Ha]; [done|]. by apply IH.
Qed.

Lemma length_inverse_permutation p : length (inverse_permutation p) = length p.
Proof. unfold inverse_permutation. by rewrite length_fmap, length_seq. Qed.

(** The inverse of a permutation is a permutation... *)
Lemma inverse_permutation_valid p :
  p ≡ₚ seq 0 (length p) → inverse_permutation p ≡ₚ seq 0 (length p).
Proof.
  intros Hp.
  assert (∀ a, a < length p → p !! index_of a p = Some a) as Hidx.
  { intros a Ha. apply index_of_lookup. rewrite Hp. apply elem_of_seq. lia. }
  apply submseteq_length_Permutation;
    [|by rewrite length_inverse_permutation, length_seq].
  apply NoDup_submseteq.
  - unfold inverse_permutation. apply NoDup_fmap_2_strong; [|apply NoDup_seq].
    intros a b Ha%elem_of_seq Hb%elem_of_seq E.
    pose proof (Hidx a ltac:(lia)) as H1. pose proof (Hidx b ltac:(lia)) as H2.
    rewrite E in H1. congruence.
  - intros x (a & -> & Ha%elem_of_seq)%list_elem_of_fmap.
    apply elem_of_seq. pose proof (Hidx a ltac:(lia)) as H1.
    apply lookup_lt_Some in H1. lia.
Qed.

(** ... that undoes it. *)
Lemma compose_perm_inverse p :
  p ≡ₚ seq 0 (length p) →
  compose_perm p (inverse_permutation p) = seq 0 (length p).
Proof.
  intros Hp. unfold compose_perm, inverse_permutation.
  rewrite <-list_fmap_compose. rewrite <-(list_fmap_id (seq 0 (length p))) at 2.
  apply list_fmap_ext. intros i a [-> Hi]%lookup_seq. simpl.
  apply list_lookup_total_correct, index_of_lookup.
  rewrite Hp. apply elem_of_seq. lia.
Qed.

(** ** The whole run of [transposeAlotNp] *)

Section run.
Context {A : Type} `{Inhabited A}.
Implicit Types m v : ndarray A.

(** Run from a model [m0] that shows [v]'s axes in the order [c0]: the run
    succeeds and ends on a model showing them in the order
    [c0 ∘ permutation]. *)
Lemma transposeAlotNp_run_spec v m0 c0 permutation :
  permutation ≡ₚ seq 0 (length permutation) →
  length c0 = length permutation →
  array_equal m0 (permute_axes c0 v) →
  ∃ st, transposeAlotNp_run m0 permutation = Ok st
        ∧ loop_invariant v m0 c0 permutation (length permutation - 1) st
        ∧ current_permutation st = permutation.
Proof.
  intros Hvalid Hc0 Hm0.
  destruct (loop_invariant_prefix v m0 c0 permutation Hvalid
              (length permutation - 1)
              (initial_state m0 (length permutation)))
    as (st & Hrun & Hinv); [done| |].
  { split; simpl; [done|done| |done|by left].
    by rewrite <-Hc0, compose_perm_seq. }
  exists st. split; [exact Hrun|]. split; [done|].
  by eapply loop_invariant_final.
Qed.

Lemma initial_array_equal m :
  array_equal m (permute_axes (seq 0 (ndim m)) m).
Proof. rewrite permute_axes_id. apply array_equal_refl. Qed.

(** With the identity permutation no iteration swaps anything. *)
Lemma for_each_identity m n positions :
  for_each (outer_body (seq 0 n) n) positions (initial_state m n)
  = Ok (initial_state m n).
Proof.
  assert (∀ i, outer_body (seq 0 n) n (initial_state m n) i
               = Ok (initial_state m n)) as Hbody.
  { intros i. unfold outer_body. cbn [initial_state current_permutation].
    case_decide; [congruence|done]. }
  induction positions as [|i positions IH]; [done|].
  cbn [for_each]. rewrite Hbody. exact IH.
Qed.

(** Index form of a transposed view: the element of the view at
    [(idx[p[0]], ..., idx[p[n-1]])] is the element of [m] at [idx]. *)
Lemma getitem_permute_axes m p idx :
  p ≡ₚ seq 0 (ndim m) → length idx = ndim m →
  getitem (permute_axes p m) ((λ k, idx !!! k) <$> p) = getitem m idx.
Proof.
  intros Hp Hl. unfold getitem, strides. simpl. f_equal. unfold offset.
  rewrite <-list_fmap_compose.
  set (g := λ k, idx !!! k * (axes m).*2 !!! k).
  trans (sum_list (g <$> p)).
  { f_equal. rewrite zip_with_fmap_l, zip_with_fmap_r, zip_with_diag.
    apply list_fmap_ext. intros i k Hk. unfold g. simpl. f_equal.
    rewrite (list_lookup_total_fmap snd (axes m) k); [done|].
    assert (k ∈ p) as Hin by (by eapply list_elem_of_lookup_2).
    rewrite Hp in Hin. apply elem_of_seq in Hin. unfold ndim in Hin. lia. }
  rewrite Hp. f_equal.
  apply list_eq_same_length with (ndim m).
  - rewrite length_zip_with, Hl, length_fmap. unfold ndim. lia.
  - by rewrite length_fmap, length_seq.
  - intros k x y Hk Hx Hy.
    rewrite list_lookup_fmap, lookup_seq_lt in Hx by done.
    injection Hx as <-. apply lookup_zip_with_Some in Hy as (a & b & -> & Ha & Hb).
    unfold g. simpl.
    by rewrite (list_lookup_total_correct _ _ _ Ha), (list_lookup_total_correct _ _ _ Hb).
Qed.

Lemma shape_permute_axes m p :
  Forall (λ k, k < ndim m) p →
  shape (permute_axes p m) = (λ k, shape m !!! k) <$> p.
Proof.
  intros Hall. unfold shape. simpl. rewrite <-list_fmap_compose.
  apply list_fmap_ext. intros i k Hk. simpl.
  rewrite Forall_lookup in Hall.
  rewrite (list_lookup_total_fmap fst (axes m) k); [done|]. by eapply Hall.
Qed.

Lemma in_bounds_permute m p idx :
  Forall (λ k, k < ndim m) p → in_bounds idx (shape m) →
  in_bounds ((λ k, idx !!! k) <$> p) (shape (permute_axes p m)).
Proof.
  intros Hall Hb. rewrite shape_permute_axes by done.
  apply Forall2_fmap, Forall_Forall2_diag.
  eapply Forall_impl; [exact Hall|]. intros k Hk. simpl in *.
  pose proof (Forall2_length _ _ _ Hb) as Hl. rewrite length_shape in Hl.
  eapply Forall2_lookup_lr; [exact Hb| |];
    apply list_lookup_lookup_total_lt; rewrite ?length_shape; lia.
Qed.

End run.

(** ** [transposeAlotNp]: the axis permuter *)

Section axis_permuter.
Context {A : Type} `{Inhabited A}.
Implicit Types m v : ndarray A.

Lemma valid_permutation_length m permutation :
  permutation ≡ₚ seq 0 (ndim m) → length permutation = ndim m.
Proof. intros Hp%Permutation_length. by rewrite length_seq in Hp. Qed.

(** The general statement behind the claims: started on a model [m0] that
    shows [v] with its axes in the order [c0], [transposeAlotNp] returns a
    model that shows [v] with its axes in the order [c0 ∘ permutation]. *)
Lemma transposeAlotNp_spec v m0 c0 permutation :
  permutation ≡ₚ seq 0 (length permutation) →
  length c0 = length permutation →
  array_equal m0 (permute_axes c0 v) →
  ∃ out, transposeAlotNp m0 permutation = Ok out
         ∧ array_equal out (permute_axes (compose_perm c0 permutation) v)
         ∧ (out = m0 ∨ c_contiguous out).
Proof.
  intros Hvalid Hc0 Hm0.
  destruct (transposeAlotNp_run_spec v m0 c0 permutation Hvalid Hc0 Hm0)
    as (st & Hrun & [_ _ Hm _ Hlay] & Hcur).
  exists (model st). unfold transposeAlotNp. rewrite Hrun. simpl.
  split; [done|]. split; [|done]. by rewrite <-Hcur.
Qed.

(** The log of a run replays to its model, and holds at most one swap per
    iteration. *)
Lemma for_each_outer_body_log permutation n positions (st0 st : loop_state A) :
  for_each (outer_body permutation n) positions st0 = Ok st →
  ∃ extra, swap_log st = swap_log st0 ++ extra
           ∧ length extra ≤ length positions
           ∧ replay_swaps (model st0) extra = Ok (model st).
Proof.
  revert st0. induction positions as [|i positions IH]; intros st0 Hrun.
  { injection Hrun as <-. exists []. by rewrite app_nil_r. }
  cbn [for_each] in Hrun.
  destruct (outer_body permutation n st0 i) as [st1|e] eqn:Hbody; [|done].
  simpl in Hrun. destruct (IH _ Hrun) as (extra & Hlog & Hlen & Hrep).
  unfold outer_body in Hbody. case_decide.
  - destruct (np_swapaxes (model st0) i _) as [w|e] eqn:Hsw; [|done].
    injection Hbody as <-. simpl in *.
    eexists (_ :: extra). split; [by rewrite Hlog, <-app_assoc|].
    split; [simpl; lia|]. unfold replay_swaps. cbn [for_each].
    rewrite Hsw. simpl. exact Hrep.
  - injection Hbody as <-. exists extra. split; [done|]. split; [simpl; lia|done].
Qed.

(** Called on the array itself: the result shows its axes in the order
    [permutation]. *)
Lemma transposeAlotNp_array_equal m permutation :
  permutation ≡ₚ seq 0 (ndim m) →
  ∃ out, transposeAlotNp m permutation = Ok out
         ∧ array_equal out (permute_axes permutation m)
         ∧ (out = m ∨ c_contiguous out).
Proof.
  intros Hp. pose proof (valid_permutation_length _ _ Hp) as Hlen.
  pose proof (Permutation_seq_lt _ _ Hp) as Hlt.
  destruct (transposeAlotNp_spec m m (seq 0 (ndim m)) permutation)
    as (out & Hrun & Heq & Hlay).
  { by rewrite Hlen. }
  { by rewrite length_seq. }
  { apply initial_array_equal. }
  rewrite compose_perm_id in Heq by done. by exists out.
Qed.

(** C3: on an array with [n] axes and a valid permutation of [0..n-1],
    [transposeAlotNp] (pairwise swaps only) returns the array that
    [np.transpose] returns, up to [np.array_equal]: output axis [i] is input
    axis [permutation[i]], that is, the output has shape
    [shape[permutation[i]]] at axis [i] and its element at
    [(idx[permutation[0]], ..., idx[permutation[n-1]])] is the input's
    element at [idx]. *)
Theorem transposeAlotNp_transpose m permutation :
  permutation ≡ₚ seq 0 (ndim m) →
  ∃ out t, transposeAlotNp m permutation = Ok out
           ∧ np_transpose m permutation = Ok t
           ∧ array_equal out t
           ∧ shape out = (λ k, shape m !!! k) <$> permutation
           ∧ ∀ idx, in_bounds idx (shape m) →
               getitem out ((λ k, idx !!! k) <$> permutation) = getitem m idx.
Proof.
  intros Hp. pose proof (valid_permutation_length _ _ Hp) as Hlen.
  pose proof (Permutation_seq_lt _ _ Hp) as Hlt.
  destruct (transposeAlotNp_spec m m (seq 0 (ndim m)) permutation)
    as (out & Hrun & Heq & _).
  { by rewrite Hlen. }
  { by rewrite length_seq. }
  { apply initial_array_equal. }
  rewrite compose_perm_id in Heq by done.
  exists out, (permute_axes permutation m). split; [done|].
  split; [unfold np_transpose; by rewrite decide_True|].
  split; [done|]. destruct Heq as [Hs He]. split.
  - rewrite Hs. by apply shape_permute_axes.
  - intros idx Hb. rewrite He.
    + apply getitem_permute_axes; [done|].
      apply Forall2_length in Hb. by rewrite length_shape in Hb.
    + rewrite Hs. by apply in_bounds_permute.
Qed.

(** C6: permuting the axes by a valid permutation and then by its inverse
    gives back the original array (for every rank, so for rank at most 5):
    [np.array_equal] to it, and the very same value when the original is
    C-contiguous. *)
Theorem transposeAlotNp_round_trip m permutation :
  permutation ≡ₚ seq 0 (ndim m) →
  ∃ out back,
    transposeAlotNp m permutation = Ok out
    ∧ transposeAlotNp out (inverse_permutation permutation) = Ok back
    ∧ array_equal back m
    ∧ (c_contiguous m → back = m).
Proof.
  intros Hp. pose proof (valid_permutation_length _ _ Hp) as Hlen.
  pose proof (Permutation_seq_lt _ _ Hp) as Hlt.
  rewrite <-Hlen in Hp.
  destruct (transposeAlotNp_spec m m (seq 0 (ndim m)) permutation)
    as (out & Hrun & Heq & Hlay); [done|by rewrite length_seq| |].
  { apply initial_array_equal. }
  rewrite compose_perm_id in Heq by done.
  destruct (transposeAlotNp_spec m out permutation (inverse_permutation permutation))
    as (back & Hrun' & Heq' & Hlay').
  { rewrite length_inverse_permutation. by apply inverse_permutation_valid. }
  { by rewrite length_inverse_permutation. }
  { done. }
  rewrite compose_perm_inverse, Hlen, permute_axes_id in Heq' by done.
  exists out, back. split; [done|]. split; [done|]. split; [done|].
  intros Hc. apply array_equal_c_contiguous; [|done..].
  destruct Hlay' as [->|]; [|done]. by destruct Hlay as [->|].
Qed.

(** C8: with the identity permutation [0, 1, ..., n-1] the array is
    returned as it is, and no axis is swapped. *)
Theorem transposeAlotNp_identity m :
  transposeAlotNp m (seq 0 (ndim m)) = Ok m
  ∧ swap_log <$> transposeAlotNp_run m (seq 0 (ndim m)) = Ok [].
Proof.
  unfold transposeAlotNp, transposeAlotNp_run, transposeAlotNp_loop.
  rewrite length_seq, for_each_identity. by split.
Qed.

(** C9: on an array with [n] axes and a valid permutation the run performs
    at most [n - 1] calls of [np.swapaxes] (the logged swaps, which replay to
    the returned array), and the result is a function of the arguments: any
    two runs agree. *)
Theorem transposeAlotNp_swap_count m permutation :
  permutation ≡ₚ seq 0 (ndim m) →
  (∃ st, transposeAlotNp_run m permutation = Ok st
         ∧ transposeAlotNp m permutation = Ok (model st)
         ∧ replay_swaps m (swap_log st) = Ok (model st)
         ∧ length (swap_log st) ≤ ndim m - 1)
  ∧ ∀ r1 r2, transposeAlotNp m permutation = r1 →
             transposeAlotNp m permutation = r2 → r1 = r2.
Proof.
  intros Hp. pose proof (valid_permutation_length _ _ Hp) as Hlen.
  rewrite <-Hlen in Hp. split; [|congruence].
  destruct (transposeAlotNp_run_spec m m (seq 0 (ndim m)) permutation)
    as (st & Hrun & _ & _); [done|by rewrite length_seq| |].
  { apply initial_array_equal. }
  exists st. split; [done|]. split; [unfold transposeAlotNp; by rewrite Hrun|].
  destruct (for_each_outer_body_log _ _ _ _ _ Hrun) as (extra & Hlog & Hn & Hrep).
  simpl in Hlog. subst extra. split; [done|].
  rewrite length_seq in Hn. lia.
Qed.

(** C10: the invariant of the outer loop.  For a valid permutation of
    length [n], at the end of iteration [i] (any [i] in [0 .. n-2])
    [current_permutation] is a permutation of [0..n-1] and agrees with
    [permutation] on the positions [0..i]; so when the loop is over it
    equals [permutation] at every position, the last included. *)
Theorem current_permutation_invariant m permutation :
  permutation ≡ₚ seq 0 (ndim m) →
  (∀ i, i < length permutation - 1 →
     ∃ st, transposeAlotNp_loop m permutation (seq 0 (S i)) = Ok st
           ∧ current_permutation st ≡ₚ seq 0 (length permutation)
           ∧ take (S i) (current_permutation st) = take (S i) permutation)
  ∧ ∃ st, transposeAlotNp_run m permutation = Ok st
          ∧ current_permutation st = permutation.
Proof.
  intros Hp. pose proof (valid_permutation_length _ _ Hp) as Hlen.
  rewrite <-Hlen in Hp.
  assert (loop_invariant m m (seq 0 (ndim m)) permutation 0
            (initial_state m (length permutation))) as Hinit.
  { split; simpl; [done|done| |done|by left].
    rewrite Hlen, compose_perm_id
      by (apply Forall_forall; intros ? ?%elem_of_seq; lia).
    apply initial_array_equal. }
  split.
  - intros i Hi.
    destruct (loop_invariant_prefix m m (seq 0 (ndim m)) permutation Hp (S i) _
                ltac:(lia) Hinit) as (st & Hrun & [Hperm Hpre _ _ _]).
    by exists st.
  - destruct (loop_invariant_prefix m m (seq 0 (ndim m)) permutation Hp
                (length permutation - 1) _ ltac:(lia) Hinit) as (st & Hrun & Hinv).
    exists st. split; [done|]. by eapply loop_invariant_final.
Qed.

End axis_permuter.

(** ** The pooling functions *)

Lemma quot_of_nat (a b : nat) :
  0 < b → Z.quot (Z.of_nat a) (Z.of_nat b) = Z.of_nat (a / b).
Proof.
  intros Hb. rewrite Z.quot_div_nonneg by lia. by rewrite Nat2Z.inj_div.
Qed.

Lemma Forall_of_nat_nonneg (s : list nat) : Forall (λ d, 0 ≤ d)%Z (Z.of_nat <$> s).
Proof. apply Forall_fmap, Forall_true. intros d. simpl. lia. Qed.

Lemma to_nat_of_nat_list (s : list nat) : Z.to_nat <$> (Z.of_nat <$> s) = s.
Proof.
  rewrite <-list_fmap_compose. rewrite <-(list_fmap_id s) at 2.
  apply list_fmap_ext. intros i d _. simpl. lia.
Qed.

Section pooling.
Context {A : Type} `{Inhabited A}.
Implicit Types tensor volume x : ndarray A.

Lemma lift_Ok_bind {X Y : Type} (a : X) (f : X → traced Y) :
  lift (Ok a) ≫= f = f a.
Proof. unfold mbind, traced_bind, lift. simpl. by destruct (f a). Qed.

Lemma calling_Ok_bind {X Y : Type} c (a : X) (f : X → traced Y) :
  calling c (Ok a) ≫= f = Traced (c :: calls (f a)) (outcome (f a)).
Proof. reflexivity. Qed.


Lemma py_truediv_Ok a b : b ≠ 0%Z → py_truediv a b = Ok (PyFloat a b).
Proof. intros. unfold py_truediv. by rewrite decide_False. Qed.

Lemma shape_reshaped x s : shape (reshaped x s) = s.
Proof. apply fst_zip_c_strides. Qed.

Lemma c_contiguous_reshaped x s :
  size s = size (shape x) → c_contiguous (reshaped x s).
Proof.
  intros Hs. split.
  - unfold strides, shape. simpl. by rewrite snd_zip_c_strides, fst_zip_c_strides.
  - rewrite shape_reshaped. simpl. by rewrite length_fmap, length_seq.
Qed.

Lemma reshaped_array_equal x y s : array_equal x y → reshaped x s = reshaped y s.
Proof. intros E%ascontiguousarray_ext. unfold reshaped. by rewrite E. Qed.

(** Reading a reshaped array: same row-major position, same element. *)
Lemma getitem_reshaped x s idx idx' :
  in_bounds idx' (shape x) →
  offset idx (c_strides s) = offset idx' (c_strides (shape x)) →
  getitem (reshaped x s) idx = getitem x idx'.
Proof.
  intros Hb Ho. rewrite <-(getitem_ascontiguousarray x idx') by done.
  unfold getitem. rewrite strides_ascontiguousarray.
  unfold strides. simpl. by rewrite snd_zip_c_strides, Ho.
Qed.



Lemma pooling_permutation_valid : [0; 2; 4; 1; 3] ≡ₚ seq 0 5.
Proof. by apply (bool_decide_unpack _). Qed.



(** The index map of the closed form. *)
Lemma pooled_getitem tensor ch gw pw gh ph c r col gx gy :
  shape tensor = [ch; gw * pw; gh * ph] →
  c < ch → r < pw → col < ph → gx < gw → gy < gh →
  getitem
    (reshaped
       (permute_axes [0; 2; 4; 1; 3] (reshaped tensor [ch; gw; pw; gh; ph]))
       [ch * pw * ph; gw; gh])
    [c * pw * ph + r * ph + col; gx; gy]
  = getitem tensor [c; gx * pw + r; gy * ph + col].
Proof.
  intros Hs Hc Hr Hcol Hgx Hgy.
  set (t1 := reshaped tensor [ch; gw; pw; gh; ph]).
  assert (shape (permute_axes [0; 2; 4; 1; 3] t1) = [ch; pw; ph; gw; gh]) as Hs2
    by done.
  rewrite (getitem_reshaped _ _ _ [c; r; col; gx; gy]).
  - change [c; r; col; gx; gy]
      with ((λ k, [c; gx; r; gy; col] !!! k) <$> [0; 2; 4; 1; 3]).
    rewrite getitem_permute_axes by (done || apply pooling_permutation_valid).
    apply getitem_reshaped.
    + rewrite Hs. repeat constructor; nia.
    + rewrite Hs. unfold offset, size. simpl. lia.
  - rewrite Hs2. repeat constructor; lia.
  - rewrite Hs2. unfold offset, size. simpl. lia.
Qed.

Lemma split_size_eq c w h pw ph :
  (pw | w) → (ph | h) → 0 < pw → 0 < ph →
  size [c; w / pw; pw; h / ph; ph] = size [c; w; h].
Proof.
  intros [gw ->] [gh ->] Hpw Hph. rewrite !Nat.div_mul by lia.
  unfold size. simpl. lia.
Qed.


(** ** The numpy reference versions *)

Lemma set_shape_Ok volume (s : list nat) :
  c_contiguous volume → size s = size (shape volume) →
  set_shape volume (Z.of_nat <$> s) = Ok (reshaped volume s).
Proof.
  intros Hc Hs. unfold set_shape.
  rewrite decide_True by apply Forall_of_nat_nonneg.
  rewrite to_nat_of_nat_list, decide_True by done.
  rewrite decide_True by apply Hc.
  unfold reshaped. by rewrite ascontiguousarray_id.
Qed.


Lemma np_shapes_nat c w h pw ph :
  0 < pw → 0 < ph →
  np_shapes (Z.of_nat <$> [c; w; h]) (Z.of_nat pw, Z.of_nat ph)
  = Ok (Z.of_nat <$> [c; w / pw; pw; h / ph; ph],
        Z.of_nat <$> [c * pw * ph; w / pw; h / ph]).
Proof.
  intros Hpw Hph. unfold np_shapes.
  cbn [fmap list_fmap tuple_get lookup list_lookup mbind result_bind].
  rewrite (py_truediv_Ok (Z.of_nat w)) by lia.
  cbn [mbind result_bind]. rewrite py_truediv_Ok by lia.
  cbn [mbind result_bind py_int]. rewrite !quot_of_nat by done.
  by rewrite !Nat2Z.inj_mul.
Qed.

(** On a C-contiguous volume the numpy reference returns the closed form of
    the CNTK version: the two asserts of the test compare equal things. *)
Lemma dip_np_closed volume c w h pw ph :
  c_contiguous volume → shape volume = [c; w; h] → 0 < pw → 0 < ph →
  size [c; w / pw; pw; h / ph; ph] = size [c; w; h] →
  dip_np volume (Z.of_nat pw, Z.of_nat ph)
  = Ok (reshaped
          (permute_axes [0; 2; 4; 1; 3]
             (reshaped volume [c; w / pw; pw; h / ph; ph]))
          [c * pw * ph; w / pw; h / ph]).
Proof.
  intros Hc Hs Hpw Hph Hsize. unfold dip_np.
  rewrite Hs, np_shapes_nat by done. cbn [mbind result_bind].
  rewrite set_shape_Ok by (by rewrite ?Hs). cbn [mbind result_bind].
  unfold np_transpose. rewrite decide_True by apply pooling_permutation_valid.
  cbn [mbind result_bind].
  rewrite set_shape_Ok.
  - apply f_equal, reshaped_array_equal, array_equal_ascontiguousarray.
  - apply c_contiguous_ascontiguousarray.
  - rewrite shape_ascontiguousarray. unfold shape at 1. simpl.
    unfold size. simpl. lia.
Qed.






(** The only exception [transposeAlotNp] can raise is the [AxisError] of
    [np.swapaxes]. *)
Lemma transposeAlotNp_raises x permutation e :
  transposeAlotNp x permutation = Raise e → e = AxisError.
Proof.
  unfold transposeAlotNp, transposeAlotNp_run, transposeAlotNp_loop.
  generalize (initial_state x (length permutation)).
  generalize (seq 0 (length permutation - 1)).
  intros positions. induction positions as [|i positions IH]; intros st; [done|].
  cbn [for_each].
  destruct (outer_body permutation (length permutation) st i) as [st'|e'] eqn:Hb.
  - apply IH.
  - simpl. intros [= <-]. unfold outer_body in Hb. case_decide; [|done].
    unfold np_swapaxes in Hb. case_decide; [done|]. by injection Hb.
Qed.

Lemma reshape_raises x new e : reshape x new = Raise e → e = ValueError.
Proof. unfold reshape. repeat case_decide; congruence. Qed.

(** C5: the call fails on its [assert] (the spec's ShapeError) exactly when
    the input shape in force, the explicit [input_shape] or else
    [tensor.shape], does not have three entries, as with two or four; and
    it fails there before anything else: no reshape, no transposition has
    been called, whatever the tensor and the window are. *)
Theorem depth_increasing_pooling_assertion tensor pooling_window_shape input_shape :
  (outcome (depth_increasing_pooling tensor pooling_window_shape input_shape)
   = Raise AssertionError
   ↔ length (default (Z.of_nat <$> shape tensor) input_shape) ≠ 3)
  ∧ (length (default (Z.of_nat <$> shape tensor) input_shape) ≠ 3 →
     calls (depth_increasing_pooling tensor pooling_window_shape input_shape) = []).
Proof.
  destruct pooling_window_shape as [w0 w1]. unfold depth_increasing_pooling.
  set (ishape := default _ input_shape).
  case_decide as Hlen; [|by split].
  split; [|done]. split; [|done]. intros Hraise. exfalso.
  destruct ishape as [|s0 [|s1 [|s2 [|??]]]]; try done.
  cbn [tuple_get lookup list_lookup] in Hraise.
  rewrite !lift_Ok_bind in Hraise.
  destruct (decide (w0 = 0%Z)) as [Hw0|Hw0].
  { subst w0. discriminate Hraise. }
  rewrite py_truediv_Ok, !lift_Ok_bind in Hraise by done.
  destruct (decide (w1 = 0%Z)) as [Hw1|Hw1].
  { subst w1. discriminate Hraise. }
  repeat first [rewrite lift_Ok_bind in Hraise
               | rewrite py_truediv_Ok in Hraise by done].
  match type of Hraise with
  | context [calling _ (reshape tensor ?s)] =>
      destruct (reshape tensor s) as [temp1|e1] eqn:H1
  end.
  2: { apply reshape_raises in H1 as ->. done. }
  rewrite calling_Ok_bind in Hraise. cbn [outcome] in Hraise.
  destruct (transpose_a_lot temp1 [0; 2; 4; 1; 3]) as [temp2|e2] eqn:H2.
  2: { apply transposeAlotNp_raises in H2 as ->. done. }
  rewrite calling_Ok_bind in Hraise. cbn [outcome] in Hraise.
  match type of Hraise with
  | context [calling _ (reshape temp2 ?s)] =>
      destruct (reshape temp2 s) as [temp3|e3] eqn:H3
  end.
  - done.
  - apply reshape_raises in H3 as ->. done.
Qed.

End pooling.


(** * Further properties of the code *)

(** ** The inner search *)

Lemma inner_search_range cur target j0 a len :
  0 < len → a ≤ inner_search cur target j0 (seq a len) < a + len.
Proof.
  revert a j0. induction len as [|len IH]; intros a j0 Hlen; [lia|].
  simpl. case_decide; [lia|].
  destruct len as [|len]; [simpl; lia|].
  pose proof (IH (S a) a ltac:(lia)). lia.
Qed.

(** X7: the inner [for ... break] loop over [range(a, a + len)], [len > 0].
    It leaves [j] inside the range; [j] is the first position of the range
    where [current_permutation] holds the target when there is one, and the
    last position of the range when there is none. *)
Theorem inner_search_first_or_last cur target j0 a len :
  0 < len →
  let j := inner_search cur target j0 (seq a len) in
  a ≤ j < a + len
  ∧ (∀ pos, a ≤ pos < j → cur !!! pos ≠ target)
  ∧ (cur !!! j = target
     ∨ (j = a + len - 1 ∧ ∀ pos, a ≤ pos < a + len → cur !!! pos ≠ target)).
Proof.
  revert a j0. induction len as [|len IH]; intros a j0 Hlen; [lia|].
  simpl. case_decide as Ha.
  { split; [lia|]. split; [intros; lia|by left]. }
  destruct len as [|len].
  { simpl. split; [lia|]. split; [intros; lia|]. right. split; [lia|].
    intros pos Hpos. by replace pos with a by lia. }
  destruct (IH (S a) a ltac:(lia)) as (Hr & Hbefore & Hcase).
  split; [lia|]. split.
  - intros pos Hpos. destruct (decide (pos = a)) as [->|]; [done|].
    apply Hbefore. lia.
  - destruct Hcase as [?|[Hj Hnone]]; [by left|right]. split; [lia|].
    intros pos Hpos. destruct (decide (pos = a)) as [->|]; [done|].
    apply Hnone. lia.
Qed.

(** ** Runs on arbitrary permutation arguments *)

Lemma size_Permutation s s' : s ≡ₚ s' → size s = size s'.
Proof.
  induction 1 as [|d s s' _ IH|d d' s|s s' s'' _ IH1 _ IH2].
  - done.
  - by rewrite !size_cons, IH.
  - rewrite !size_cons. lia.
  - congruence.
Qed.

Section any_permutation.
Context {A : Type} `{Inhabited A}.
Implicit Types m v : ndarray A.
Implicit Types st : loop_state A.

Lemma ndim_ascontiguousarray m : ndim (ascontiguousarray m) = ndim m.
Proof.
  unfold ndim at 1. simpl.
  by rewrite length_zip_with, length_c_strides, Nat.min_id, length_shape.
Qed.

Lemma ndim_swap_state st i j : ndim (model (swap_state st i j)) = ndim (model st).
Proof.
  simpl. rewrite ndim_ascontiguousarray. unfold ndim. simpl.
  apply length_list_swap.
Qed.

(** What an iteration does: nothing, or the swap of [i] with a position
    [j] of the range. *)
Lemma outer_body_step permutation n st i :
  i < n → n ≤ ndim (model st) →
  outer_body permutation n st i = Ok st
  ∨ ∃ j, i ≤ j < n
         ∧ permutation !!! i ≠ current_permutation st !!! i
         ∧ outer_body permutation n st i = Ok (swap_state st i j).
Proof.
  intros Hi Hn. unfold outer_body. case_decide as Hne; [right|by left].
  set (j := inner_search _ _ _ _).
  assert (i ≤ j < n) as Hj.
  { pose proof (inner_search_range (current_permutation st)
                  (permutation !!! i) i i (n - i) ltac:(lia)). unfold j. lia. }
  exists j. split; [done|]. split; [done|].
  rewrite np_swapaxes_Ok by lia. done.
Qed.

(** A property that holds at the start and that every swap inside the
    range keeps holds at the end, and the run does not raise. *)
Lemma for_each_outer_body_closure (P : loop_state A → Prop) permutation n positions st0 :
  Forall (λ i, i < n) positions →
  (∀ st, P st → n ≤ ndim (model st)) →
  (∀ st i j, P st → i ≤ j < n → P (swap_state st i j)) →
  P st0 →
  ∃ st, for_each (outer_body permutation n) positions st0 = Ok st ∧ P st.
Proof.
  intros Hpos Hnd Hstep. revert st0.
  induction Hpos as [|i positions Hi _ IH]; intros st0 HP.
  { by exists st0. }
  cbn [for_each].
  destruct (outer_body_step permutation n st0 i Hi (Hnd _ HP))
    as [->|(j & Hj & _ & ->)]; simpl; apply IH; [done|by apply Hstep].
Qed.

Lemma Forall_seq_lt n k : k ≤ n → Forall (λ i, i < n) (seq 0 k).
Proof. intros Hk. apply Forall_forall. intros i Hi%elem_of_seq. lia. Qed.

Lemma transposeAlotNp_run_closure (P : loop_state A → Prop) m permutation :
  (∀ st, P st → length permutation ≤ ndim (model st)) →
  (∀ st i j, P st → i ≤ j < length permutation → P (swap_state st i j)) →
  P (initial_state m (length permutation)) →
  ∃ st, transposeAlotNp_run m permutation = Ok st ∧ P st.
Proof.
  intros Hnd Hstep Hinit. apply for_each_outer_body_closure; try done.
  apply Forall_seq_lt. lia.
Qed.

(** The contiguous copy of a view with two axes swapped holds the elements
    of the buffer, each once, in another order. *)
Lemma swap_copy_data m i j :
  c_contiguous m → i < ndim m → j < ndim m →
  data (ascontiguousarray {| axes := list_swap i j (axes m); data := data m |})
  ≡ₚ data m.
Proof.
  intros [Hst Hlen] Hi Hj.
  set (s := shape m) in *. set (s' := list_swap i j s).
  assert (length s = ndim m) as Hls by apply length_shape.
  assert (shape {| axes := list_swap i j (axes m); data := data m |} = s') as Hs'.
  { unfold shape. simpl. by rewrite list_swap_fmap. }
  assert (strides {| axes := list_swap i j (axes m); data := data m |}
          = list_swap i j (c_strides s)) as Hst'.
  { unfold strides at 1. simpl. rewrite list_swap_fmap by done. by rewrite <-Hst. }
  assert (size s' = size s) as Hsz.
  { apply size_Permutation, list_swap_Permutation; lia. }
  assert (list_swap i j s' = s) as Hinv by (apply list_swap_invol; lia).
  set (g := λ k, offset (unravel_index k s') (list_swap i j (c_strides s))).
  assert (∀ k, k < size s →
            in_bounds (list_swap i j (unravel_index k s')) s
            ∧ g k = offset (list_swap i j (unravel_index k s')) (c_strides s))
    as Hg.
  { intros k Hk. rewrite <-Hsz in Hk.
    pose proof (unravel_in_bounds k s' Hk) as Hb.
    pose proof (Forall2_length _ _ _ Hb) as Hlu.
    assert (length s' = length s) as Hls' by apply length_list_swap.
    rewrite Hls' in Hlu. split.
    - assert (i < length (unravel_index k s')) as Hi' by lia.
      assert (j < length (unravel_index k s')) as Hj' by lia.
      pose proof (list_swap_Forall2 lt i j _ _ Hi' Hj' Hb) as Hb'.
      by rewrite Hinv in Hb'.
    - unfold g.
      rewrite <-(offset_list_swap i j (list_swap i j (unravel_index k s'))).
      + by rewrite list_swap_invol by lia.
      + by rewrite length_list_swap, length_c_strides.
      + rewrite length_list_swap. lia.
      + rewrite length_list_swap. lia. }
  assert (∀ k, k < size s → g k < size s) as Hlt.
  { intros k Hk. destruct (Hg k Hk) as [Hb ->]. by apply ravel_lt. }
  assert (∀ k1 k2, k1 < size s → k2 < size s → g k1 = g k2 → k1 = k2) as Hinj.
  { intros k1 k2 Hk1 Hk2 E.
    destruct (Hg k1 Hk1) as [Hb1 E1], (Hg k2 Hk2) as [Hb2 E2].
    rewrite E1, E2 in E.
    assert (list_swap i j (unravel_index k1 s') = list_swap i j (unravel_index k2 s'))
      as Eu by (by rewrite <-(unravel_ravel _ _ Hb1), <-(unravel_ravel _ _ Hb2), E).
    assert (unravel_index k1 s' = unravel_index k2 s') as Eu'.
    { pose proof (Forall2_length _ _ _ Hb1) as L1.
      pose proof (Forall2_length _ _ _ Hb2) as L2.
      rewrite length_list_swap in L1, L2.
      rewrite <-(list_swap_invol i j (unravel_index k1 s')) by lia.
      rewrite Eu. apply list_swap_invol; lia. }
    rewrite <-(ravel_unravel k1 s'), <-(ravel_unravel k2 s') by lia.
    by rewrite Eu'. }
  apply Permutation_inj. unfold ascontiguousarray, getitem. cbv zeta.
  cbn [data]. rewrite Hs', Hst'.
  split; [by rewrite length_fmap, length_seq, Hsz|].
  exists (λ k, if decide (k < size s) then g k else k). split.
  - intros k1 k2. simpl. repeat case_decide; intros E.
    + by apply Hinj.
    + pose proof (Hlt k1 ltac:(done)). lia.
    + pose proof (Hlt k2 ltac:(done)). lia.
    + done.
  - intros k. simpl. case_decide as Hk.
    + rewrite list_lookup_fmap, lookup_seq_lt by lia. simpl.
      fold (g k). symmetry.
      apply list_lookup_lookup_total_lt. rewrite Hlen. by apply Hlt.
    + rewrite !lookup_ge_None_2; [done|lia|].
      rewrite length_fmap, length_seq. lia.
Qed.

(** X1: [transposeAlotNp] does not check its permutation argument.  For
    every list of the array's rank, a valid permutation or not, the call
    returns without raising, with at most [n - 1] swaps, and what it returns
    is the input with its axes in the order of the final
    [current_permutation], which is always a genuine permutation of
    [0..n-1]: an invalid argument yields some axis permutation of the
    input, never an error and never other data. *)
Theorem transposeAlotNp_any_list m permutation :
  length permutation = ndim m →
  ∃ st, transposeAlotNp_run m permutation = Ok st
        ∧ transposeAlotNp m permutation = Ok (model st)
        ∧ current_permutation st ≡ₚ seq 0 (ndim m)
        ∧ array_equal (model st) (permute_axes (current_permutation st) m)
        ∧ length (swap_log st) ≤ ndim m - 1.
Proof.
  intros Hlen.
  destruct (transposeAlotNp_run_closure
    (λ st, current_permutation st ≡ₚ seq 0 (ndim m)
           ∧ array_equal (model st) (permute_axes (current_permutation st) m))
    m permutation) as (st & Hrun & Hperm & Heq).
  - intros st [Hp [Hs _]]. rewrite <-length_shape, Hs, length_shape, ndim_permute_axes.
    apply Permutation_length in Hp. rewrite length_seq in Hp. lia.
  - intros st i j [Hp Heq] Hij. rewrite Hlen in Hij.
    pose proof (Permutation_length Hp) as Hl. rewrite length_seq in Hl.
    assert (ndim (model st) = ndim m) as Hnd.
    { destruct Heq as [Hs _].
      by rewrite <-length_shape, Hs, length_shape, ndim_permute_axes. }
    split; simpl.
    + rewrite list_swap_Permutation by lia. done.
    + eapply array_equal_trans; [apply array_equal_ascontiguousarray|].
      rewrite permute_axes_swap by lia.
      apply np_swapaxes_array_equal; [done|lia..].
  - simpl. rewrite Hlen. split; [done|]. apply initial_array_equal.
  - exists st. split; [done|]. split; [unfold transposeAlotNp; by rewrite Hrun|].
    split; [done|]. split; [done|].
    destruct (for_each_outer_body_log _ _ _ _ _ Hrun) as (extra & Hlog & Hn & _).
    simpl in Hlog. subst extra. rewrite length_seq, Hlen in Hn. lia.
Qed.

(** X2: the only exception [transposeAlotNp] can raise is the [AxisError]
    of [np.swapaxes], and only when the permutation is longer than the
    array's rank.  With a list no longer than the rank the call returns an
    array of the same rank whose extents are those of the input in another
    order. *)
Theorem transposeAlotNp_axis_error m permutation :
  (length permutation ≤ ndim m →
   ∃ out, transposeAlotNp m permutation = Ok out
          ∧ ndim out = ndim m ∧ shape out ≡ₚ shape m)
  ∧ (∀ e, transposeAlotNp m permutation = Raise e →
          e = AxisError ∧ ndim m < length permutation).
Proof.
  assert (length permutation ≤ ndim m →
          ∃ out, transposeAlotNp m permutation = Ok out
                 ∧ ndim out = ndim m ∧ shape out ≡ₚ shape m) as Hok.
  { intros Hlen.
    destruct (transposeAlotNp_run_closure
      (λ st, ndim (model st) = ndim m ∧ shape (model st) ≡ₚ shape m)
      m permutation) as (st & Hrun & Hnd & Hsh).
    - intros st [-> _]. done.
    - intros st i j [Hnd Hsh] Hij. split; [by rewrite ndim_swap_state|].
      simpl. rewrite shape_ascontiguousarray. unfold shape at 1. simpl.
      assert (i < length (axes (model st)) ∧ j < length (axes (model st)))
        as [Hi Hj] by (fold (ndim (model st)); lia).
      rewrite list_swap_fmap by done.
      rewrite list_swap_Permutation; [done|by rewrite length_fmap..].
    - by split.
    - exists (model st). unfold transposeAlotNp. by rewrite Hrun. }
  split; [done|]. intros e He. split; [by eapply transposeAlotNp_raises|].
  destruct (decide (length permutation ≤ ndim m)) as [Hle|]; [|lia].
  destruct (Hok Hle) as (out & Hout & _). congruence.
Qed.

Lemma transposeAlotNp_run_keeps_data m permutation :
  c_contiguous m → length permutation ≤ ndim m →
  ∃ st, transposeAlotNp_run m permutation = Ok st
        ∧ c_contiguous (model st) ∧ data (model st) ≡ₚ data m.
Proof.
  intros Hc Hlen.
  destruct (transposeAlotNp_run_closure
    (λ st, ndim (model st) = ndim m ∧ c_contiguous (model st)
           ∧ data (model st) ≡ₚ data m)
    m permutation) as (st & Hrun & Hnd & Hcc & Hd).
  - intros st (-> & _). done.
  - intros st i j (Hnd & Hcc & Hd) Hij. split; [by rewrite ndim_swap_state|].
    split; [apply c_contiguous_ascontiguousarray|].
    etrans; [apply (swap_copy_data (model st) i j); [done|lia..]|done].
  - by split.
  - by exists st.
Qed.

(** X3: the permuter loses and duplicates nothing.  On a C-contiguous
    array and any list no longer than its rank, the returned buffer holds
    the elements of the input buffer, each as often as before, and the
    result is again C-contiguous. *)
Theorem transposeAlotNp_data m permutation :
  c_contiguous m → length permutation ≤ ndim m →
  ∃ out, transposeAlotNp m permutation = Ok out
         ∧ data out ≡ₚ data m ∧ c_contiguous out.
Proof.
  intros Hc Hlen.
  destruct (transposeAlotNp_run_keeps_data m permutation Hc Hlen)
    as (st & Hrun & Hcc & Hd).
  exists (model st). unfold transposeAlotNp. rewrite Hrun. by split.
Qed.

Lemma list_swap_same {X : Type} `{Inhabited X} i (l : list X) : list_swap i i l = l.
Proof.
  unfold list_swap. rewrite list_insert_insert_eq.
  destruct (decide (i < length l)) as [Hi|Hi].
  - apply list_insert_id. by apply list_lookup_lookup_total_lt.
  - apply list_insert_ge. lia.
Qed.

(** X4: a valid permutation is handled without any swap, the input being
    returned as it is, exactly when it is the identity: every other valid
    permutation costs at least one swap and one contiguous copy. *)
Theorem transposeAlotNp_no_swap m permutation :
  permutation ≡ₚ seq 0 (ndim m) →
  ∃ st, transposeAlotNp_run m permutation = Ok st
        ∧ (swap_log st = [] ↔ permutation = seq 0 (ndim m))
        ∧ (swap_log st = [] → model st = m).
Proof.
  intros Hp. pose proof (valid_permutation_length _ _ Hp) as Hlen.
  destruct (transposeAlotNp_run_spec m m (seq 0 (ndim m)) permutation)
    as (st & Hrun & _ & Hcur).
  { by rewrite Hlen. }
  { by rewrite length_seq. }
  { apply initial_array_equal. }
  destruct (transposeAlotNp_run_closure
    (λ st, ndim (model st) = ndim m
           ∧ (swap_log st = [] →
              current_permutation st = seq 0 (ndim m) ∧ model st = m))
    m permutation) as (st' & Hrun' & _ & Hnil).
  - intros st0 [-> _]. lia.
  - intros st0 i j [Hnd _] Hij. split; [by rewrite ndim_swap_state|].
    simpl. intros E. by apply app_nil in E as [_ ?].
  - split; [done|]. simpl. by rewrite Hlen.
  - rewrite Hrun in Hrun'. injection Hrun' as <-.
    exists st. split; [done|]. split; [split|].
    + intros E. destruct (Hnil E) as [Hc _]. congruence.
    + intros E. unfold transposeAlotNp_run, transposeAlotNp_loop in Hrun.
      rewrite E, length_seq, for_each_identity in Hrun. by injection Hrun as <-.
    + intros E. by destruct (Hnil E).
Qed.

(** The log of a run on a valid permutation: after [k] iterations every
    logged swap joins a position below [k] with a later axis. *)
Lemma valid_run_log m permutation k :
  permutation ≡ₚ seq 0 (ndim m) → k ≤ ndim m - 1 →
  ∃ st, transposeAlotNp_loop m permutation (seq 0 k) = Ok st
        ∧ loop_invariant m m (seq 0 (ndim m)) permutation k st
        ∧ Forall (λ ab, ab.1 < ab.2 < ndim m ∧ ab.1 < k) (swap_log st)
        ∧ NoDup (swap_log st).*1.
Proof.
  intros Hp Hk. pose proof (valid_permutation_length _ _ Hp) as Hlen.
  assert (permutation ≡ₚ seq 0 (length permutation)) as Hp' by (by rewrite Hlen).
  unfold transposeAlotNp_loop. rewrite Hlen.
  induction k as [|k IH].
  { eexists. split; [done|]. split; [|split; [constructor|constructor]].
    split; simpl; [by rewrite Hlen|done| |done|by left].
    rewrite compose_perm_id by (apply Forall_forall; intros ? ?%elem_of_seq; lia).
    apply initial_array_equal. }
  destruct IH as (st & Hrun & Hinv & Hlog & Hnd); [lia|].
  destruct (outer_body_invariant m m (seq 0 (ndim m)) permutation Hp' k st)
    as (st' & Hstep & Hinv'); [lia|done|].
  rewrite Hlen in Hstep.
  exists st'. split; [by rewrite seq_S, for_each_app, Hrun; simpl; rewrite Hstep|].
  split; [done|].
  pose proof (loop_invariant_ndim m m (seq 0 (ndim m)) permutation k st Hinv)
    as Hndim.
  destruct (outer_body_step permutation (ndim m) st k)
    as [Hsame|(j & Hj & Hne & Hswap)]; [lia|lia| |].
  - rewrite Hsame in Hstep. injection Hstep as <-. split; [|done].
    eapply Forall_impl; [exact Hlog|]. intros ab ?. simpl in *. lia.
  - rewrite Hswap in Hstep. injection Hstep as <-. simpl.
    assert (j ≠ k) as Hjk.
    { intros ->. destruct Hinv' as [_ Hpre _ _ _]. simpl in Hpre.
      rewrite list_swap_same in Hpre. apply Hne.
      assert (permutation !! k = current_permutation st !! k) as E.
      { by rewrite <-(lookup_take_lt permutation (S k)), <-Hpre,
                   lookup_take_lt by lia. }
      by rewrite !list_lookup_total_alt, E. }
    split.
    + apply Forall_app. split.
      * eapply Forall_impl; [exact Hlog|]. intros ab ?. simpl in *. lia.
      * constructor; [simpl; lia|constructor].
    + rewrite fmap_app. apply NoDup_app. split; [done|]. split.
      * intros a Ha Hk'%list_elem_of_singleton. simpl in Hk'. subst a.
        apply list_elem_of_fmap in Ha as (ab & Heq & Hab).
        rewrite Forall_forall in Hlog. pose proof (Hlog _ Hab). lia.
      * apply NoDup_singleton.
Qed.

(** X5: on a valid permutation of [0..n-1] every swap the permuter makes
    exchanges a position [i] with a strictly later axis [j < n]: it never
    swaps an axis with itself, and it swaps from each position at most
    once. *)
Theorem transposeAlotNp_swaps_forward m permutation :
  permutation ≡ₚ seq 0 (ndim m) →
  ∃ st, transposeAlotNp_run m permutation = Ok st
        ∧ Forall (λ ab, ab.1 < ab.2 < ndim m) (swap_log st)
        ∧ NoDup (swap_log st).*1.
Proof.
  intros Hp. pose proof (valid_permutation_length _ _ Hp) as Hlen.
  destruct (valid_run_log m permutation (ndim m - 1) Hp)
    as (st & Hrun & _ & Hlog & Hnd); [done|].
  exists st. unfold transposeAlotNp_run. rewrite Hlen.
  split; [done|]. split; [|done].
  eapply Forall_impl; [exact Hlog|]. by intros ab [? _].
Qed.

(** X6: two calls compose.  Permuting by [p] and then by [q] (both valid)
    gives the array that [np.transpose] gives for the composed permutation
    [i ↦ p[q[i]]]. *)
Theorem transposeAlotNp_compose m p q :
  p ≡ₚ seq 0 (ndim m) → q ≡ₚ seq 0 (ndim m) →
  ∃ out out2 t,
    transposeAlotNp m p = Ok out
    ∧ transposeAlotNp out q = Ok out2
    ∧ np_transpose m (compose_perm p q) = Ok t
    ∧ array_equal out2 t.
Proof.
  intros Hp Hq.
  pose proof (valid_permutation_length _ _ Hp) as Hlp.
  pose proof (valid_permutation_length _ _ Hq) as Hlq.
  destruct (transposeAlotNp_array_equal m p Hp) as (out & Hrun & Heq & _).
  destruct (transposeAlotNp_spec m out p q) as (out2 & Hrun2 & Heq2 & _).
  { by rewrite Hlq. }
  { lia. }
  { done. }
  exists out, out2, (permute_axes (compose_perm p q) m).
  split; [done|]. split; [done|]. split; [|done].
  unfold np_transpose. rewrite decide_True; [done|].
  unfold compose_perm. rewrite Hq, <-Hlp.
  fold (compose_perm p (seq 0 (length p))). by rewrite compose_perm_seq, Hlp.
Qed.

End any_permutation.

(** ** The pooling references on arbitrary arguments *)

Section pooling_references.
Context {A : Type} `{Inhabited A}.
Implicit Types volume tensor : ndarray A.

Lemma np_shapes_length vshape w shape_tmp final_shape :
  np_shapes vshape w = Ok (shape_tmp, final_shape) →
  length shape_tmp = 5 ∧ length final_shape = 3.
Proof.
  destruct w as [w0 w1]. unfold np_shapes.
  destruct (tuple_get vshape 0) as [s0|]; [|done]. cbn [mbind result_bind].
  destruct (tuple_get vshape 1) as [s1|]; [|done]. cbn [mbind result_bind].
  destruct (py_truediv s1 w0) as [q1|]; [|done]. cbn [mbind result_bind].
  destruct (tuple_get vshape 2) as [s2|]; [|done]. cbn [mbind result_bind].
  destruct (py_truediv s2 w1) as [q2|]; [|done]. cbn [mbind result_bind].
  by intros [= <- <-].
Qed.

Lemma set_shape_inv volume new out :
  c_contiguous volume → set_shape volume new = Ok out →
  c_contiguous out ∧ ndim out = length new ∧ data out = data volume.
Proof.
  intros [Hst Hlen]. unfold set_shape. repeat case_decide; try done.
  intros [= <-]. split; [split|].
  - unfold strides, shape. simpl. by rewrite snd_zip_c_strides, fst_zip_c_strides.
  - unfold shape at 1. simpl. rewrite fst_zip_c_strides. congruence.
  - unfold ndim. simpl.
    by rewrite length_zip_with, length_c_strides, Nat.min_id, length_fmap.
Qed.

(** On a C-contiguous 5-axis array the swap-only transpose returns the
    contiguous copy of [np.transpose]'s view. *)
Lemma transposes_agree (v' : ndarray A) :
  c_contiguous v' → ndim v' = 5 →
  transposeAlotNp v' [0; 2; 4; 1; 3]
  = Ok (ascontiguousarray (permute_axes [0; 2; 4; 1; 3] v'))
  ∧ np_transpose v' [0; 2; 4; 1; 3] = Ok (permute_axes [0; 2; 4; 1; 3] v').
Proof.
  intros Hc' Hnd.
  assert ([0; 2; 4; 1; 3] ≡ₚ seq 0 (ndim v')) as Hp
    by (rewrite Hnd; apply pooling_permutation_valid).
  destruct (transposeAlotNp_array_equal v' _ Hp) as (temp & -> & Heq & Hlay).
  assert (c_contiguous temp) as Hct by (by destruct Hlay as [->|]).
  pose proof (ascontiguousarray_ext _ _ Heq) as E.
  rewrite ascontiguousarray_id in E by done.
  split; [by rewrite E|]. unfold np_transpose. by rewrite decide_True.
Qed.

(** X8: the old manual test in general.  On every C-contiguous array and
    every window, [dip_swap_np], which transposes with pairwise swaps, and
    [dip_np], which calls [np.transpose], behave alike: the same array, or
    the same exception. *)
Theorem dip_swap_np_is_dip_np volume pooling_window_shape :
  c_contiguous volume →
  dip_swap_np volume pooling_window_shape = dip_np volume pooling_window_shape.
Proof.
  intros Hc. unfold dip_swap_np, dip_np.
  destruct (np_shapes _ pooling_window_shape) as [[shape_tmp final_shape]|e]
    eqn:Hsh; [|done].
  cbn [mbind result_bind].
  destruct (set_shape volume shape_tmp) as [v'|e] eqn:Hset; [|done].
  cbn [mbind result_bind].
  destruct (set_shape_inv _ _ _ Hc Hset) as (Hc' & Hnd & _).
  apply np_shapes_length in Hsh as [Hl5 _]. rewrite Hl5 in Hnd.
  destruct (transposes_agree v' Hc' Hnd) as [-> ->]. done.
Qed.



(** X11: the full window.  With the window equal to the whole
    (width, height) plane, both positive, the pooling moves nothing: the
    result is the input buffer under the shape (channels·width·height, 1, 1). *)
Theorem dip_np_full_window volume (channels width height : nat) :
  c_contiguous volume →
  shape volume = [channels; width; height] →
  0 < width → 0 < height →
  dip_np volume (Z.of_nat width, Z.of_nat height)
  = Ok (reshaped volume [channels * width * height; 1; 1])
  ∧ data (reshaped volume [channels * width * height; 1; 1]) = data volume.
Proof.
  intros Hc Hs Hw Hh. split; [|by (unfold reshaped; cbn [data]; rewrite ascontiguousarray_id)].
  assert (size [channels; width / width; width; height / height; height]
          = size [channels; width; height]) as Hsize
    by (by apply split_size_eq).
  rewrite (dip_np_closed volume channels width height width height) by done.
  rewrite !Nat.div_same by lia.
  f_equal. apply array_equal_c_contiguous.
  { apply c_contiguous_reshaped. unfold shape at 1. simpl. unfold size. simpl. lia. }
  { apply c_contiguous_reshaped. rewrite Hs. unfold size. simpl. lia. }
  split; [by rewrite !shape_reshaped|].
  rewrite shape_reshaped. intros idx Hb.
  inversion Hb as [|k d1 idx1 s1 Hk Hb1]; subst.
  inversion Hb1 as [|x d2 idx2 s2 Hx Hb2]; subst.
  inversion Hb2 as [|y d3 idx3 s3 Hy Hb3]; subst.
  inversion Hb3; subst.
  assert (x = 0) as -> by lia. assert (y = 0) as -> by lia.
  set (c := k / (width * height)).
  set (r := (k `mod` (width * height)) / height).
  set (col := (k `mod` (width * height)) `mod` height).
  assert (k = c * width * height + r * height + col) as Hk'.
  { pose proof (Nat.div_mod_eq k (width * height)).
    pose proof (Nat.div_mod_eq (k `mod` (width * height)) height).
    unfold c, r, col. lia. }
  assert (c < channels) as Hcb
    by (apply Nat.Div0.div_lt_upper_bound; lia).
  assert (r < width) as Hrb.
  { apply Nat.Div0.div_lt_upper_bound.
    pose proof (Nat.mod_upper_bound k (width * height) ltac:(lia)). lia. }
  assert (col < height) as Hcolb by (apply Nat.mod_upper_bound; lia).
  trans (getitem volume [c; r; col]).
  - rewrite Hk' at 1. etrans.
    { apply (pooled_getitem volume channels 1 width 1 height c r col 0 0);
        [|lia..].
      rewrite Hs. by rewrite !Nat.mul_1_l. }
    done.
  - symmetry. apply getitem_reshaped.
    + rewrite Hs. repeat constructor; lia.
    + rewrite Hs. unfold offset, size. simpl. lia.
Qed.


(** X13: too few axes.  On an array with fewer than three axes both numpy
    versions fail with [IndexError] on [volume.shape[k]] (with exactly two
    axes, provided the first window entry is not zero, whose division comes
    first): they have no assert of their own. *)
Theorem too_few_axes_raise volume (w0 w1 : Z) :
  ndim volume < 3 → (ndim volume = 2 → w0 ≠ 0%Z) →
  dip_np volume (w0, w1) = Raise IndexError
  ∧ dip_swap_np volume (w0, w1) = Raise IndexError.
Proof.
  intros Hnd Hw.
  assert (np_shapes (Z.of_nat <$> shape volume) (w0, w1) = Raise IndexError)
    as Hsh.
  { unfold ndim in Hnd, Hw. unfold shape.
    destruct (axes volume) as [|a0 [|a1 [|a2 rest]]]; simpl in Hnd; try lia;
      try done.
    unfold np_shapes. cbn [fmap list_fmap tuple_get lookup list_lookup mbind result_bind].
    by rewrite (py_truediv_Ok _ w0) by (by apply Hw). }
  split; [unfold dip_np; by rewrite Hsh|unfold dip_swap_np; by rewrite Hsh].
Qed.


End pooling_references.

(** ** The test and concrete runs *)

(** C7: the test of the source.  On the (2,4,4) data with window (2,2),
    [depth_increasing_pooling] returns exactly the expected (8,2,2) tensor:
    [[0,2],[20,22]], [[1,3],[21,23]], [[10,12],[30,32]], [[11,13],[31,33]]
    and the same four shifted by 100; so does the numpy reference, the
    first assert of the test. *)
Theorem test_depth_increasing_pooling :
  outcome (depth_increasing_pooling test_data (2, 2)%Z None) = Ok test_expected
  ∧ dip_np test_data (2, 2)%Z = Ok test_expected
  ∧ shape test_data = [2; 4; 4] ∧ shape test_expected = [8; 2; 2].
Proof. by vm_compute. Qed.

(** The old manual test: the swap-only transpose gives the same tensor. *)
Example test_dip_swap_np : dip_swap_np test_data (2, 2)%Z = Ok test_expected.
Proof. by vm_compute. Qed.

(** The shape tuple handed to the last reshape holds the two quotients as
    floats; the reshape reads them as 2 and 2. *)
Example test_calls :
  calls (depth_increasing_pooling test_data (2, 2)%Z None)
  = [CallReshape [PyInt 2; PyInt 2; PyInt 2; PyInt 2; PyInt 2]%Z;
     CallTransposeALot [0; 2; 4; 1; 3];
     CallReshape [PyInt 8; PyFloat 4 2; PyFloat 4 2]%Z].
Proof. by vm_compute. Qed.

(** The swaps [transposeAlotNp] makes for the pooling permutation. *)
Example test_swap_log :
  swap_log <$> transposeAlotNp_run (reshaped test_data [2; 2; 2; 2; 2]) [0; 2; 4; 1; 3]
  = Ok [(1, 2); (2, 4); (3, 4)].
Proof. by vm_compute. Qed.

(** The assert comes first: with two or four entries in [input_shape] it
    fails before the division by a zero window entry is reached, and
    nothing has been called. *)
Example test_assertion_first :
  depth_increasing_pooling test_data (0, 0)%Z (Some [4; 4]%Z)
  = Traced [] (Raise AssertionError)
  ∧ depth_increasing_pooling test_data (2, 2)%Z (Some [1; 2; 4; 4]%Z)
    = Traced [] (Raise AssertionError)
  ∧ outcome (depth_increasing_pooling test_data (0, 2)%Z None)
    = Raise ZeroDivisionError.
Proof. by vm_compute. Qed.


Lemma test_permutation_valid : [2; 0; 1] ≡ₚ seq 0 (ndim test_data).
Proof. by apply (bool_decide_unpack _). Defined.




Lemma transposeAlotNp_transpose_witness :
  [2; 0; 1] ≡ₚ seq 0 (ndim test_data)
  ∧ ∃ out t, transposeAlotNp test_data [2; 0; 1] = Ok out
             ∧ np_transpose test_data [2; 0; 1] = Ok t
             ∧ array_equal out t
             ∧ shape out = (λ k, shape test_data !!! k) <$> [2; 0; 1]
             ∧ ∀ idx, in_bounds idx (shape test_data) →
                 getitem out ((λ k, idx !!! k) <$> [2; 0; 1]) = getitem test_data idx.
Proof.
  split; [exact test_permutation_valid|].
  apply (transposeAlotNp_transpose test_data [2; 0; 1] test_permutation_valid).
Defined.

Lemma transposeAlotNp_round_trip_witness :
  [2; 0; 1] ≡ₚ seq 0 (ndim test_data)
  ∧ ∃ out back,
      transposeAlotNp test_data [2; 0; 1] = Ok out
      ∧ transposeAlotNp out (inverse_permutation [2; 0; 1]) = Ok back
      ∧ array_equal back test_data
      ∧ (c_contiguous test_data → back = test_data).
Proof.
  split; [exact test_permutation_valid|].
  apply (transposeAlotNp_round_trip test_data [2; 0; 1] test_permutation_valid).
Defined.

Lemma transposeAlotNp_swap_count_witness :
  [2; 0; 1] ≡ₚ seq 0 (ndim test_data)
  ∧ (∃ st, transposeAlotNp_run test_data [2; 0; 1] = Ok st
           ∧ transposeAlotNp test_data [2; 0; 1] = Ok (model st)
           ∧ replay_swaps test_data (swap_log st) = Ok (model st)
           ∧ length (swap_log st) ≤ ndim test_data - 1)
  ∧ ∀ r1 r2, transposeAlotNp test_data [2; 0; 1] = r1 →
             transposeAlotNp test_data [2; 0; 1] = r2 → r1 = r2.
Proof.
  split; [exact test_permutation_valid|].
  apply (transposeAlotNp_swap_count test_data [2; 0; 1] test_permutation_valid).
Defined.

Lemma current_permutation_invariant_witness :
  [2; 0; 1] ≡ₚ seq 0 (ndim test_data)
  ∧ (∀ i, i < length [2; 0; 1] - 1 →
       ∃ st, transposeAlotNp_loop test_data [2; 0; 1] (seq 0 (S i)) = Ok st
             ∧ current_permutation st ≡ₚ seq 0 (length [2; 0; 1])
             ∧ take (S i) (current_permutation st) = take (S i) [2; 0; 1])
  ∧ ∃ st, transposeAlotNp_run test_data [2; 0; 1] = Ok st
          ∧ current_permutation st = [2; 0; 1].
Proof.
  split; [exact test_permutation_valid|].
  apply (current_permutation_invariant test_data [2; 0; 1] test_permutation_valid).
Defined.

(** ** Concrete runs of the further properties *)

Lemma test_data_c_contiguous : c_contiguous test_data.
Proof. split; reflexivity. Defined.

(** A permutation longer than the rank can raise: here the first swap
    asks for axis 3 of a 3-axis array. *)
Example test_axis_error : transposeAlotNp test_data [3; 0; 1; 2] = Raise AxisError.
Proof. by vm_compute. Qed.

(** An invalid list is not refused: [2, 2, 7] silently gives the axis
    order (2, 0, 1); the second 2 is found nowhere, so position 1 is
    swapped with the last axis. *)
Example test_invalid_permutation :
  current_permutation <$> transposeAlotNp_run test_data [2; 2; 7] = Ok [2; 0; 1].
Proof. by vm_compute. Qed.

Lemma inner_search_first_or_last_witness :
  0 < 3
  ∧ let j := inner_search [0; 1; 2; 3] 2 0 (seq 1 3) in
    1 ≤ j < 1 + 3
    ∧ (∀ pos, 1 ≤ pos < j → [0; 1; 2; 3] !!! pos ≠ 2)
    ∧ ([0; 1; 2; 3] !!! j = 2
       ∨ (j = 1 + 3 - 1 ∧ ∀ pos, 1 ≤ pos < 1 + 3 → [0; 1; 2; 3] !!! pos ≠ 2)).
Proof.
  split; [lia|].
  apply (inner_search_first_or_last [0; 1; 2; 3] 2 0 1 3). lia.
Defined.

Lemma transposeAlotNp_any_list_witness :
  length [2; 2; 7] = ndim test_data
  ∧ ∃ st, transposeAlotNp_run test_data [2; 2; 7] = Ok st
          ∧ transposeAlotNp test_data [2; 2; 7] = Ok (model st)
          ∧ current_permutation st ≡ₚ seq 0 (ndim test_data)
          ∧ array_equal (model st) (permute_axes (current_permutation st) test_data)
          ∧ length (swap_log st) ≤ ndim test_data - 1.
Proof.
  split; [reflexivity|].
  apply (transposeAlotNp_any_list test_data [2; 2; 7]). reflexivity.
Defined.

Lemma transposeAlotNp_data_witness :
  c_contiguous test_data ∧ length [2; 0; 1] ≤ ndim test_data
  ∧ ∃ out, transposeAlotNp test_data [2; 0; 1] = Ok out
           ∧ data out ≡ₚ data test_data ∧ c_contiguous out.
Proof.
  assert (length [2; 0; 1] ≤ ndim test_data) as Hl by (simpl; unfold ndim; simpl; lia).
  split; [exact test_data_c_contiguous|]. split; [exact Hl|].
  apply (transposeAlotNp_data test_data [2; 0; 1] test_data_c_contiguous Hl).
Defined.

Lemma transposeAlotNp_no_swap_witness :
  [2; 0; 1] ≡ₚ seq 0 (ndim test_data)
  ∧ ∃ st, transposeAlotNp_run test_data [2; 0; 1] = Ok st
          ∧ (swap_log st = [] ↔ [2; 0; 1] = seq 0 (ndim test_data))
          ∧ (swap_log st = [] → model st = test_data).
Proof.
  split; [exact test_permutation_valid|].
  apply (transposeAlotNp_no_swap test_data [2; 0; 1] test_permutation_valid).
Defined.

Lemma transposeAlotNp_swaps_forward_witness :
  [2; 0; 1] ≡ₚ seq 0 (ndim test_data)
  ∧ ∃ st, transposeAlotNp_run test_data [2; 0; 1] = Ok st
          ∧ Forall (λ ab, ab.1 < ab.2 < ndim test_data) (swap_log st)
          ∧ NoDup (swap_log st).*1.
Proof.
  split; [exact test_permutation_valid|].
  apply (transposeAlotNp_swaps_forward test_data [2; 0; 1] test_permutation_valid).
Defined.

Lemma test_permutation_valid_2 : [1; 0; 2] ≡ₚ seq 0 (ndim test_data).
Proof. by apply (bool_decide_unpack _). Defined.

Lemma transposeAlotNp_compose_witness :
  [2; 0; 1] ≡ₚ seq 0 (ndim test_data) ∧ [1; 0; 2] ≡ₚ seq 0 (ndim test_data)
  ∧ ∃ out out2 t,
      transposeAlotNp test_data [2; 0; 1] = Ok out
      ∧ transposeAlotNp out [1; 0; 2] = Ok out2
      ∧ np_transpose test_data (compose_perm [2; 0; 1] [1; 0; 2]) = Ok t
      ∧ array_equal out2 t.
Proof.
  split; [exact test_permutation_valid|]. split; [exact test_permutation_valid_2|].
  apply (transposeAlotNp_compose test_data [2; 0; 1] [1; 0; 2]
           test_permutation_valid test_permutation_valid_2).
Defined.

Lemma dip_swap_np_is_dip_np_witness :
  c_contiguous test_data
  ∧ dip_swap_np test_data (2, 2)%Z = dip_np test_data (2, 2)%Z.
Proof.
  split; [exact test_data_c_contiguous|].
  apply (dip_swap_np_is_dip_np test_data (2, 2)%Z test_data_c_contiguous).
Defined.



Lemma dip_np_full_window_witness :
  c_contiguous test_data ∧ shape test_data = [2; 4; 4] ∧ 0 < 4 ∧ 0 < 4
  ∧ dip_np test_data (Z.of_nat 4, Z.of_nat 4)
    = Ok (reshaped test_data [2 * 4 * 4; 1; 1])
  ∧ data (reshaped test_data [2 * 4 * 4; 1; 1]) = data test_data.
Proof.
  split; [exact test_data_c_contiguous|]. split; [reflexivity|].
  split; [lia|]. split; [lia|].
  apply (dip_np_full_window test_data 2 4 4 test_data_c_contiguous);
    [reflexivity|lia|lia].
Defined.


Lemma too_few_axes_raise_witness :
  ndim matrix_data < 3 ∧ (ndim matrix_data = 2 → 2%Z ≠ 0%Z)
  ∧ dip_np matrix_data (2, 2)%Z = Raise IndexError
  ∧ dip_swap_np matrix_data (2, 2)%Z = Raise IndexError.
Proof.
  assert (ndim matrix_data < 3) as Hn by (unfold ndim; simpl; lia).
  assert (ndim matrix_data = 2 → 2%Z ≠ 0%Z) as Hw by (intros _; lia).
  split; [exact Hn|]. split; [exact Hw|].
  apply (too_few_axes_raise matrix_data 2 2 Hn Hw).
Defined.

